(** * CPU scheduling simulation (parta.c): FCFS and round robin

    A shallow embedding of [init_procs], [run_proc], [fcfs_run], [rr_next]
    and [rr_run] of [parta.c], and the properties of the scheduling engine
    proved on it.  [printall] only prints the table and is left out.

    Conventions of the embedding.
    - The array [procs] is a [list pcb]; its length is the number of
      allocated elements.  [plen] stays a separate argument, as in the C
      code.  Reading or writing an element outside of the block is a fault
      ([OutOfBounds]), not a value.
    - A C [int] is a [Z] between [INT_MIN] and [INT_MAX].  Signed overflow is
      undefined in ISO C; the embedding takes the two's complement
      wrap-around of the usual targets (the choice of CompCert), written
      out in [CInt.wrap].
    - [%] is the truncating remainder [Z.rem]; a zero divisor is a fault.
    - The two [while] loops take fuel; running out of fuel is the result
      [Err OutOfFuel], which is different from every value and from every
      fault of the program. *)

From stdpp Require Import base list numbers.
From Stdlib Require Import ZArith Lia.

Open Scope Z_scope.

(** ** C integers *)

Module CInt.

Definition INT_MAX : Z := 2147483647.
Definition INT_MIN : Z := -2147483648.

Definition in_range (z : Z) : Prop := INT_MIN ≤ z ≤ INT_MAX.

(** Reduction of a mathematical integer to the 32-bit signed value with
    the same bit pattern. *)
Definition wrap (z : Z) : Z := (z + 2147483648) `mod` 4294967296 - 2147483648.

Definition add (a b : Z) : Z := wrap (a + b).
Definition sub (a b : Z) : Z := wrap (a - b).

End CInt.

(** ** Faults and results *)

Inductive fault : Set :=
| OutOfBounds   (* an element outside of the allocated block is accessed *)
| DivByZero     (* the right operand of [%] is zero *)
| DivOverflow   (* [INT_MIN % -1] *)
| OutOfFuel.    (* the embedding's loop bound is exhausted *)

Inductive result (A : Type) : Type :=
| Ok (a : A)
| Err (f : fault).

Arguments Ok {A} a.
Arguments Err {A} f.

Definition bind {A B} (m : result A) (k : A → result B) : result B :=
  match m with
  | Ok a => k a
  | Err f => Err f
  end.

Notation "'let*' x ':=' m 'in' k" := (bind m (fun x => k))
  (at level 10, x pattern, m at level 100, k at level 200).

(** [a % b] *)
Definition c_rem (a b : Z) : result Z :=
  if b =? 0 then Err DivByZero
  else if (a =? CInt.INT_MIN) && (b =? -1) then Err DivOverflow
  else Ok (Z.rem a b).

(** ** The process control block

    [parta.h] declares [struct pcb]; its three [int] fields are the ones
    [parta.c] reads and writes. *)

Record pcb : Set := mk_pcb { pid : Z; burst_left : Z; wait : Z }.

Definition set_burst_left (p : pcb) (b : Z) : pcb :=
  {| pid := pid p; burst_left := b; wait := wait p |}.

Definition set_wait (p : pcb) (w : Z) : pcb :=
  {| pid := pid p; burst_left := burst_left p; wait := w |}.

(** ** Arrays *)

(** [a[i]] as an rvalue *)
Definition arr_get {A} (a : list A) (i : Z) : result A :=
  if i <? 0 then Err OutOfBounds
  else match a !! Z.to_nat i with
       | Some x => Ok x
       | None => Err OutOfBounds
       end.

(** [a[i] = x] *)
Definition arr_set {A} (a : list A) (i : Z) (x : A) : result (list A) :=
  if (0 <=? i) && (i <? Z.of_nat (length a)) then Ok (<[Z.to_nat i := x]> a)
  else Err OutOfBounds.

(** [for (int i = lo; i < hi; i++) body], threading the state [s].  The
    counter never overflows: [i < hi] holds before [i++], and [hi] is an
    [int]. *)
Fixpoint for_iter {St} (n : nat) (i : Z) (body : Z → St → result St) (s : St)
  : result St :=
  match n with
  | O => Ok s
  | S n' => let* s' := body i s in for_iter n' (i + 1) body s'
  end.

Definition for_range {St} (lo hi : Z) (body : Z → St → result St) (s : St)
  : result St :=
  for_iter (Z.to_nat (hi - lo)) lo body s.

(** ** init_procs *)

(** The body of the initialisation loop at index [i]: the next element of
    the block is written from [bursts[i]]. *)
Definition init_body (bursts : list Z) (i : Z) (procs : list pcb)
  : result (list pcb) :=
  let* b := arr_get bursts i in
  Ok (procs ++ [ {| pid := i; burst_left := b; wait := 0 |} ]).

(** [malloc_ok] says whether [malloc] returned a block; [None] is the
    [NULL] that [init_procs] returns otherwise.  The block is filled from
    index 0 upwards, every field of every element is written. *)
Definition init_procs (malloc_ok : bool) (bursts : list Z) (blen : Z)
  : result (option (list pcb)) :=
  if malloc_ok then
    let* procs := for_range 0 blen (init_body bursts) [] in
    Ok (Some procs)
  else Ok None.

(** ** run_proc *)

(** One pass of the loop of [run_proc]; [&&] does not read [procs[i]] when
    [i == current]. *)
Definition run_proc_body (current amount : Z) (i : Z) (procs : list pcb)
  : result (list pcb) :=
  if i =? current then Ok procs
  else
    let* q := arr_get procs i in
    if 0 <? burst_left q
    then arr_set procs i (set_wait q (CInt.add (wait q) amount))
    else Ok procs.

Definition run_proc (procs : list pcb) (plen current amount : Z)
  : result (list pcb) :=
  let* p := arr_get procs current in
  let* procs1 :=
    arr_set procs current (set_burst_left p (CInt.sub (burst_left p) amount)) in
  for_range 0 plen (run_proc_body current amount) procs1.

(** ** fcfs_run *)

Definition fcfs_body (plen : Z) (i : Z) (st : list pcb * Z)
  : result (list pcb * Z) :=
  let '(procs, current_time) := st in
  let* p := arr_get procs i in
  let burst := burst_left p in
  let* procs' := run_proc procs plen i burst in
  Ok (procs', CInt.add current_time burst).

(** The table after the run and the returned [current_time]. *)
Definition fcfs_run (procs : list pcb) (plen : Z) : result (list pcb * Z) :=
  for_range 0 plen (fcfs_body plen) (procs, 0).

(** ** rr_next *)

(** The [while] loop of [rr_next], entered with the probe at [next]. *)
Fixpoint rr_next_loop (fuel : nat) (procs : list pcb) (plen start next : Z)
  : result Z :=
  match fuel with
  | O => Err OutOfFuel
  | S fuel' =>
      let* p := arr_get procs next in
      if burst_left p =? 0 then
        let* next' := c_rem (CInt.add next 1) plen in
        if next' =? start then Ok (-1)
        else rr_next_loop fuel' procs plen start next'
      else Ok next
  end.

Definition rr_next (fuel : nat) (current : Z) (procs : list pcb) (plen : Z)
  : result Z :=
  let* next := c_rem (CInt.add current 1) plen in
  rr_next_loop fuel procs plen next next.

(** ** rr_run *)

(** One pass of the [while (1)] loop up to the test of [next]: the table,
    the clock and the value of [next]. *)
Definition rr_body (fuel : nat) (plen quantum : Z)
    (procs : list pcb) (current current_time : Z)
  : result (list pcb * Z * Z) :=
  let* p := arr_get procs current in
  let* (procs1, time1) :=
    if 0 <? burst_left p then
      let amount := if burst_left p <? quantum then burst_left p else quantum in
      let* procs' := run_proc procs plen current amount in
      Ok (procs', CInt.add current_time amount)
    else Ok (procs, current_time) in
  let* next := rr_next fuel current procs1 plen in
  Ok (procs1, time1, next).

(** [n] bounds the passes of the outer loop, [fuel] the probes of each call
    of [rr_next]. *)
Fixpoint rr_loop (fuel n : nat) (plen quantum : Z)
    (procs : list pcb) (current current_time : Z)
  : result (list pcb * Z) :=
  match n with
  | O => Err OutOfFuel
  | S n' =>
      let* (procs1, time1, next) :=
        rr_body fuel plen quantum procs current current_time in
      if next =? -1 then Ok (procs1, time1)
      else rr_loop fuel n' plen quantum procs1 next time1
  end.

(** The table after the run and the returned [current_time].  One number
    [fuel] bounds both loops. *)
Definition rr_run (fuel : nat) (procs : list pcb) (plen quantum : Z)
  : result (list pcb * Z) :=
  rr_loop fuel fuel plen quantum procs 0 0.

(** The number of passes among the first [n] in which a process is
    dispatched, that is, in which [run_proc] is called. *)
Fixpoint rr_dispatches (fuel n : nat) (plen quantum : Z)
    (procs : list pcb) (current current_time : Z) : nat :=
  match n with
  | O => O
  | S n' =>
      match arr_get procs current,
            rr_body fuel plen quantum procs current current_time with
      | Ok p, Ok (procs1, time1, next) =>
          Nat.add (if 0 <? burst_left p then 1%nat else 0%nat)
                  (if next =? -1 then 0%nat
                   else rr_dispatches fuel n' plen quantum procs1 next time1)
      | _, _ => O
      end
  end.

(** ** Closed forms used by the proofs *)

(** The effect of [run_proc] on the element at index [i]. *)
Definition advance (current : nat) (amount : Z) (i : nat) (p : pcb) : pcb :=
  if decide (i = current) then set_burst_left p (CInt.sub (burst_left p) amount)
  else if 0 <? burst_left p then set_wait p (CInt.add (wait p) amount)
  else p.

(** The table while the loop of [run_proc] is at index [k]. *)
Definition advance_upto (current : nat) (amount : Z) (k : nat) (i : nat) (p : pcb)
  : pcb :=
  if decide (i < k)%nat then advance current amount i p
  else if decide (i = current)
       then set_burst_left p (CInt.sub (burst_left p) amount)
       else p.

(** The table that [init_procs] builds from [bursts]. *)
Definition table_of (bursts : list Z) : list pcb :=
  imap (λ i b, {| pid := Z.of_nat i; burst_left := b; wait := 0 |}) bursts.

Fixpoint sumZ (l : list Z) : Z :=
  match l with
  | [] => 0
  | b :: l' => b + sumZ l'
  end.

(** The fields of an element are [int]s. *)
Definition pcb_int (p : pcb) : Prop :=
  CInt.in_range (pid p) ∧ CInt.in_range (burst_left p) ∧ CInt.in_range (wait p).

(** The element at index [i], with initial burst [b], when the loop of
    [fcfs_run] is at index [k]: the processes before [k] are complete, and
    a process with a positive burst has waited for the bursts before it
    that have run. *)
Definition fcfs_at (bursts : list Z) (k i : nat) (b : Z) : pcb :=
  {| pid := Z.of_nat i;
     burst_left := if decide (i < k)%nat then 0 else b;
     wait := if 0 <? b then CInt.wrap (sumZ (take (i `min` k) bursts)) else 0 |}.

Definition fcfs_table (bursts : list Z) (k : nat) : list pcb :=
  imap (fcfs_at bursts k) bursts.

(** What the scan of [rr_next] from the probe position [start] yields:
    [-1] after a full circle of zero bursts, or else the first index in
    circular order whose burst is not zero. *)
Definition scan_result (procs : list pcb) (start : nat) (r : Z) : Prop :=
  let len := length procs in
  (r = -1 ∧
   ∀ j p, (j < len)%nat → procs !! ((start + j) `mod` len)%nat = Some p →
          burst_left p = 0) ∨
  (∃ k p, (k < len)%nat ∧ r = Z.of_nat ((start + k) `mod` len)%nat ∧
          procs !! ((start + k) `mod` len)%nat = Some p ∧ burst_left p ≠ 0 ∧
          ∀ j q, (j < k)%nat → procs !! ((start + j) `mod` len)%nat = Some q →
                 burst_left q = 0).

(** The work that is left in a table. *)
Definition total (procs : list pcb) : Z := sumZ (burst_left <$> procs).

(** Every remaining burst is a non-negative [int]. *)
Definition bursts_ok (procs : list pcb) : Prop :=
  Forall (λ p, 0 ≤ burst_left p ≤ CInt.INT_MAX) procs.

(** The time slice of [rr_run] for a remaining burst [b]. *)
Definition slice (quantum b : Z) : Z := if b <? quantum then b else quantum.

(** The input of [init_procs]: [int* bursts] holds non-negative values and
    their number is the [int blen]. *)
Definition valid_bursts (bursts : list Z) : Prop :=
  Forall (λ b, 0 ≤ b ≤ CInt.INT_MAX) bursts ∧
  Z.of_nat (length bursts) ≤ CInt.INT_MAX.

(** No field that the spec requires to be non-negative is negative. *)
Definition pcb_nonneg (p : pcb) : Prop := 0 ≤ burst_left p ∧ 0 ≤ wait p.

(** The accounting of a run on the table built from [bursts], at the
    clock [time]: the clock and the work left add up to the work given; a
    process with work left has waited whenever it has not run; a complete
    process has waited and run for at most the time elapsed. *)
Definition waits_inv (bursts : list Z) (procs : list pcb) (time : Z) : Prop :=
  length procs = length bursts ∧ 0 ≤ time ∧
  time + total procs = sumZ bursts ∧
  ∀ (i : nat) p b, procs !! i = Some p → bursts !! i = Some b →
    0 ≤ burst_left p ≤ b ∧ 0 ≤ wait p ∧
    (0 < burst_left p → wait p + (b - burst_left p) = time) ∧
    (burst_left p = 0 → wait p + b ≤ time).

(** ** Facts on C integers, arrays and loops *)

(** Linear arithmetic with the bounds of [int] unfolded. *)
Ltac int_lia :=
  unfold CInt.in_range, CInt.INT_MIN, CInt.INT_MAX in *; simpl; lia.

(** [valid_bursts] and the like on a list that is written out. *)
Ltac int_list := repeat constructor; int_lia.

Lemma wrap_id z : CInt.in_range z → CInt.wrap z = z.
Proof.
  unfold CInt.in_range, CInt.INT_MIN, CInt.INT_MAX, CInt.wrap. intros Hz.
  rewrite Z.mod_small; lia.
Qed.

Lemma wrap_add_l a b : CInt.wrap (CInt.wrap a + b) = CInt.wrap (a + b).
Proof.
  unfold CInt.wrap.
  replace ((a + 2147483648) `mod` 4294967296 - 2147483648 + b + 2147483648)
    with ((a + 2147483648) `mod` 4294967296 + b) by lia.
  rewrite Zplus_mod_idemp_l. f_equal. f_equal. lia.
Qed.

Lemma sub_diag a : CInt.sub a a = 0.
Proof. unfold CInt.sub. by rewrite Z.sub_diag. Qed.

Lemma bind_Ok {A B} (m : result A) (k : A → result B) b :
  bind m k = Ok b ↔ ∃ a, m = Ok a ∧ k a = Ok b.
Proof.
  destruct m as [a|f]; simpl.
  - split; [eauto | by intros (a' & [= ->] & ?)].
  - split; [done | by intros (? & ? & ?)].
Qed.

Lemma arr_get_nat {A} (a : list A) (i : nat) x :
  a !! i = Some x → arr_get a (Z.of_nat i) = Ok x.
Proof.
  intros Hi. unfold arr_get.
  destruct (Z.ltb_spec (Z.of_nat i) 0); [lia|].
  by rewrite Nat2Z.id, Hi.
Qed.

Lemma arr_get_Ok {A} (a : list A) (i : Z) x :
  arr_get a i = Ok x ↔ 0 ≤ i ∧ a !! Z.to_nat i = Some x.
Proof.
  unfold arr_get. destruct (Z.ltb_spec i 0).
  - split; [done | lia].
  - destruct (a !! Z.to_nat i) as [y|]; split;
      try done; try (by intros [= ->]); by intros [_ [= ->]].
Qed.

Lemma arr_set_nat {A} (a : list A) (i : nat) x :
  (i < length a)%nat → arr_set a (Z.of_nat i) x = Ok (<[i := x]> a).
Proof.
  intros Hi. unfold arr_set.
  destruct (Z.leb_spec 0 (Z.of_nat i)); [|lia].
  destruct (Z.ltb_spec (Z.of_nat i) (Z.of_nat (length a))); [|lia].
  simpl. by rewrite Nat2Z.id.
Qed.

(** A [for] loop whose states are [f k], [f (k+1)], ... *)
Lemma for_iter_chain {St} (f : nat → St) (body : Z → St → result St) n k :
  (∀ j, (k ≤ j < k + n)%nat → body (Z.of_nat j) (f j) = Ok (f (S j))) →
  for_iter n (Z.of_nat k) body (f k) = Ok (f (k + n)%nat).
Proof.
  revert k. induction n as [|n IH]; intros k Hstep; simpl.
  - by rewrite Nat.add_0_r.
  - rewrite Hstep by lia. simpl.
    replace (Z.of_nat k + 1) with (Z.of_nat (S k)) by lia.
    rewrite IH; [f_equal; f_equal; lia|].
    intros j Hj. apply Hstep. lia.
Qed.

Lemma for_range_chain {St} (f : nat → St) (body : Z → St → result St) (n : nat) :
  (∀ j, (j < n)%nat → body (Z.of_nat j) (f j) = Ok (f (S j))) →
  for_range 0 (Z.of_nat n) body (f O) = Ok (f n).
Proof.
  intros Hstep. unfold for_range.
  rewrite Z.sub_0_r, Nat2Z.id.
  change 0 with (Z.of_nat 0). rewrite for_iter_chain; [done|].
  intros j Hj. apply Hstep. lia.
Qed.

(** ** init_procs builds [table_of] *)

Lemma table_of_length bursts : length (table_of bursts) = length bursts.
Proof. unfold table_of. apply length_imap. Qed.

Lemma table_of_lookup bursts i :
  table_of bursts !! i =
  (λ b, {| pid := Z.of_nat i; burst_left := b; wait := 0 |}) <$> bursts !! i.
Proof. unfold table_of. apply list_lookup_imap. Qed.

Lemma table_of_snoc bursts b :
  table_of (bursts ++ [b]) =
  table_of bursts ++ [ {| pid := Z.of_nat (length bursts); burst_left := b; wait := 0 |} ].
Proof.
  unfold table_of. rewrite imap_app. simpl. by rewrite Nat.add_0_r.
Qed.

Lemma init_procs_table bursts :
  init_procs true bursts (Z.of_nat (length bursts)) = Ok (Some (table_of bursts)).
Proof.
  unfold init_procs.
  rewrite (for_range_chain (λ k, table_of (take k bursts))).
  - simpl. by rewrite firstn_all.
  - intros j Hj. unfold init_body.
    destruct (lookup_lt_is_Some_2 bursts j Hj) as [b Hb].
    rewrite (arr_get_nat _ _ _ Hb). simpl.
    rewrite (take_S_r _ _ _ Hb), table_of_snoc.
    rewrite length_take, Nat.min_l by lia. done.
Qed.

(** ** run_proc in closed form *)

Lemma advance_upto_0 current amount procs p :
  procs !! current = Some p →
  imap (advance_upto current amount 0) procs =
  <[current := set_burst_left p (CInt.sub (burst_left p) amount)]> procs.
Proof.
  intros Hp. apply list_eq. intros i.
  rewrite list_lookup_imap. unfold advance_upto.
  destruct (decide (i = current)) as [->|Hne].
  - rewrite list_lookup_insert_eq by (by eapply lookup_lt_Some).
    rewrite Hp. simpl. repeat case_decide; done || lia.
  - rewrite list_lookup_insert_ne by done.
    destruct (procs !! i); simpl; [|done]. repeat case_decide; done || lia.
Qed.

Lemma advance_upto_all current amount procs :
  imap (advance_upto current amount (length procs)) procs =
  imap (advance current amount) procs.
Proof.
  apply list_eq. intros i. rewrite !list_lookup_imap.
  destruct (procs !! i) eqn:Hi; simpl; [|done].
  apply lookup_lt_Some in Hi. unfold advance_upto.
  case_decide; done || lia.
Qed.

Lemma run_proc_body_step current amount procs k :
  (k < length procs)%nat →
  run_proc_body (Z.of_nat current) amount (Z.of_nat k)
    (imap (advance_upto current amount k) procs) =
  Ok (imap (advance_upto current amount (S k)) procs).
Proof.
  intros Hk. unfold run_proc_body.
  destruct (lookup_lt_is_Some_2 procs k Hk) as [q Hq].
  destruct (Z.eqb_spec (Z.of_nat k) (Z.of_nat current)) as [Heq|Hne].
  - apply Nat2Z.inj in Heq. subst k. f_equal.
    apply imap_ext. intros i x Hi. unfold advance_upto, advance.
    repeat case_decide; done || lia.
  - assert (k ≠ current) as Hkc by congruence.
    rewrite (arr_get_nat _ _ q); last first.
    { rewrite list_lookup_imap, Hq. simpl. unfold advance_upto.
      repeat case_decide; done || lia. }
    simpl. destruct (0 <? burst_left q) eqn:Hlive.
    + rewrite arr_set_nat by (by rewrite length_imap). f_equal.
      apply list_eq. intros i. rewrite list_lookup_imap.
      destruct (decide (i = k)) as [->|Hik].
      * rewrite list_lookup_insert_eq by (by rewrite length_imap).
        rewrite Hq. simpl. unfold advance_upto, advance.
        repeat case_decide; try lia. by rewrite Hlive.
      * rewrite list_lookup_insert_ne by done.
        rewrite list_lookup_imap. destruct (procs !! i); simpl; [|done].
        unfold advance_upto. repeat case_decide; done || lia.
    + f_equal. apply imap_ext. intros i x Hi.
      unfold advance_upto, advance.
      repeat case_decide; try lia; try done.
      assert (i = k) as -> by lia.
      assert (x = q) as -> by congruence. by rewrite Hlive.
Qed.

Lemma run_proc_imap procs (current : nat) amount :
  (current < length procs)%nat →
  run_proc procs (Z.of_nat (length procs)) (Z.of_nat current) amount =
  Ok (imap (advance current amount) procs).
Proof.
  intros Hc. unfold run_proc.
  destruct (lookup_lt_is_Some_2 procs current Hc) as [p Hp].
  rewrite (arr_get_nat _ _ _ Hp). simpl.
  rewrite arr_set_nat by done. simpl.
  rewrite <- (advance_upto_0 current amount procs p Hp).
  rewrite (for_range_chain (λ k, imap (advance_upto current amount k) procs)).
  - by rewrite advance_upto_all.
  - intros j Hj. by apply run_proc_body_step.
Qed.

(** ** fcfs_run in closed form *)

Lemma sumZ_app l1 l2 : sumZ (l1 ++ l2) = sumZ l1 + sumZ l2.
Proof. induction l1 as [|b l1 IH]; simpl; lia. Qed.

Lemma sumZ_take_S bursts k b :
  bursts !! k = Some b → sumZ (take (S k) bursts) = sumZ (take k bursts) + b.
Proof.
  intros Hb. rewrite (take_S_r _ _ _ Hb), sumZ_app. simpl. lia.
Qed.

Lemma sumZ_nonneg l : Forall (λ b, 0 ≤ b) l → 0 ≤ sumZ l.
Proof. induction 1; simpl; lia. Qed.

Lemma fcfs_table_length bursts k : length (fcfs_table bursts k) = length bursts.
Proof. unfold fcfs_table. apply length_imap. Qed.

Lemma fcfs_table_lookup bursts k i :
  fcfs_table bursts k !! i = fcfs_at bursts k i <$> bursts !! i.
Proof. unfold fcfs_table. apply list_lookup_imap. Qed.

Lemma fcfs_table_0 bursts : fcfs_table bursts 0 = table_of bursts.
Proof.
  unfold fcfs_table, table_of. apply imap_ext. intros i b Hb.
  unfold fcfs_at. rewrite Nat.min_0_r. simpl.
  by destruct (0 <? b).
Qed.

(** Running the process at index [k] to completion moves the table from
    position [k] to position [k+1]. *)
Lemma advance_fcfs_table bursts k b :
  bursts !! k = Some b →
  imap (advance k b) (fcfs_table bursts k) = fcfs_table bursts (S k).
Proof.
  intros Hb. apply list_eq. intros i.
  rewrite list_lookup_imap, !fcfs_table_lookup.
  destruct (bursts !! i) as [bi|] eqn:Hi; simpl; [|done]. f_equal.
  unfold advance, fcfs_at. simpl.
  destruct (decide (i = k)) as [->|Hik].
  - assert (bi = b) as -> by congruence.
    unfold set_burst_left. simpl.
    repeat case_decide; try lia.
    rewrite sub_diag. by rewrite Nat.min_id, Nat.min_l by lia.
  - destruct (decide (i < k)%nat) as [Hlt|Hge].
    + simpl. case_decide; [|lia]. by rewrite !Nat.min_l by lia.
    + case_decide; [lia|].
      destruct (0 <? bi) eqn:Hlive; [|done].
      unfold set_wait. simpl. f_equal.
      rewrite !Nat.min_r by lia.
      rewrite (sumZ_take_S _ _ _ Hb). unfold CInt.add. apply wrap_add_l.
Qed.

Lemma fcfs_body_step bursts k :
  (k < length bursts)%nat →
  fcfs_body (Z.of_nat (length bursts)) (Z.of_nat k)
    (fcfs_table bursts k, CInt.wrap (sumZ (take k bursts))) =
  Ok (fcfs_table bursts (S k), CInt.wrap (sumZ (take (S k) bursts))).
Proof.
  intros Hk. destruct (lookup_lt_is_Some_2 bursts k Hk) as [b Hb].
  unfold fcfs_body.
  rewrite (arr_get_nat _ _ (fcfs_at bursts k k b))
    by (by rewrite fcfs_table_lookup, Hb).
  simpl. case_decide; [lia|].
  rewrite <- (fcfs_table_length bursts k) at 1.
  rewrite run_proc_imap by (by rewrite fcfs_table_length). simpl.
  rewrite (advance_fcfs_table _ _ _ Hb), (sumZ_take_S _ _ _ Hb).
  unfold CInt.add. by rewrite wrap_add_l.
Qed.

Lemma fcfs_run_closed bursts :
  fcfs_run (table_of bursts) (Z.of_nat (length bursts)) =
  Ok (fcfs_table bursts (length bursts), CInt.wrap (sumZ bursts)).
Proof.
  unfold fcfs_run.
  rewrite <- fcfs_table_0.
  rewrite (for_range_chain
             (λ k, (fcfs_table bursts k, CInt.wrap (sumZ (take k bursts))))).
  - by rewrite firstn_all.
  - intros j Hj. by apply fcfs_body_step.
Qed.

(** ** rr_next *)

Lemma mod_once (x n : nat) : (n ≤ x < 2 * n)%nat → (x `mod` n = x - n)%nat.
Proof.
  intros Hx. replace x with ((x - n) + 1 * n)%nat at 1 by lia.
  rewrite Nat.Div0.mod_add. apply Nat.mod_small. lia.
Qed.

Lemma mod_back_to_start (start d n : nat) :
  (start < n)%nat → (0 < d ≤ n)%nat →
  ((start + d) `mod` n = start ↔ d = n)%nat.
Proof.
  intros Hs Hd. destruct (decide (start + d < n)%nat) as [Hlt|Hge].
  - rewrite Nat.mod_small by done. lia.
  - rewrite mod_once by lia. lia.
Qed.

Lemma mod_reaches (start i n : nat) :
  (start < n)%nat → (i < n)%nat →
  ∃ j, (j < n)%nat ∧ ((start + j) `mod` n = i)%nat.
Proof.
  intros Hs Hi. destruct (decide (start ≤ i)%nat) as [Hle|Hgt].
  - exists (i - start)%nat. split; [lia|].
    rewrite Nat.mod_small by lia. lia.
  - exists (i + n - start)%nat. split; [lia|].
    rewrite mod_once by lia. lia.
Qed.

Lemma c_rem_succ (i len : nat) :
  (i < len)%nat → Z.of_nat len ≤ CInt.INT_MAX →
  c_rem (CInt.add (Z.of_nat i) 1) (Z.of_nat len) =
  Ok (Z.of_nat ((i + 1) `mod` len)).
Proof.
  intros Hi Hlen. unfold c_rem, CInt.add.
  rewrite wrap_id by int_lia.
  destruct (Z.eqb_spec (Z.of_nat len) 0); [lia|].
  destruct (Z.eqb_spec (Z.of_nat len) (-1)); [lia|].
  rewrite andb_false_r. f_equal.
  rewrite Z.rem_mod_nonneg by lia.
  rewrite Nat2Z.inj_mod. f_equal. lia.
Qed.

Lemma rr_next_loop_scan procs start :
  (start < length procs)%nat → Z.of_nat (length procs) ≤ CInt.INT_MAX →
  ∀ m d fuel,
    (d + m = length procs)%nat → (0 < m ≤ fuel)%nat →
    (∀ j p, (j < d)%nat →
            procs !! ((start + j) `mod` length procs)%nat = Some p →
            burst_left p = 0) →
    ∃ r, rr_next_loop fuel procs (Z.of_nat (length procs)) (Z.of_nat start)
           (Z.of_nat ((start + d) `mod` length procs)) = Ok r ∧
         scan_result procs start r.
Proof.
  intros Hstart Hlen. induction m as [|m IH]; intros d fuel Hdm Hm Hzero; [lia|].
  destruct fuel as [|fuel]; [lia|]. simpl.
  set (i := ((start + d) `mod` length procs)%nat).
  assert (i < length procs)%nat as Hi by (apply Nat.mod_upper_bound; lia).
  destruct (lookup_lt_is_Some_2 procs i Hi) as [p Hp].
  rewrite (arr_get_nat _ _ _ Hp). simpl.
  destruct (Z.eqb_spec (burst_left p) 0) as [Hp0|Hp0].
  - rewrite c_rem_succ by done. simpl.
    assert (((i + 1) `mod` length procs)%nat =
            ((start + S d) `mod` length procs)%nat) as ->.
    { unfold i. rewrite Nat.Div0.add_mod_idemp_l. f_equal. lia. }
    assert (∀ j q, (j < S d)%nat →
              procs !! ((start + j) `mod` length procs)%nat = Some q →
              burst_left q = 0) as Hzero'.
    { intros j q Hj Hq. destruct (decide (j = d)) as [->|Hne].
      - fold i in Hq. congruence.
      - apply (Hzero j q); [lia | done]. }
    destruct (Z.eqb_spec (Z.of_nat ((start + S d) `mod` length procs))
                (Z.of_nat start)) as [Heq|Hne].
    + apply Nat2Z.inj in Heq. apply mod_back_to_start in Heq; [|lia..].
      exists (-1). split; [done|]. left. split; [done|].
      intros j q Hj. apply Hzero'. lia.
    + assert (S d ≠ length procs) as Hd.
      { intros Heq. apply Hne. f_equal. apply mod_back_to_start; lia. }
      apply IH; [lia | lia | done].
  - exists (Z.of_nat i). split; [done|]. right.
    exists d, p. repeat split; try done. lia.
Qed.

(** [rr_next] on a table of [len] elements, from an index in range. *)
Lemma rr_next_scan procs (current fuel : nat) :
  (current < length procs)%nat → Z.of_nat (length procs) ≤ CInt.INT_MAX →
  (length procs ≤ fuel)%nat →
  ∃ r, rr_next fuel (Z.of_nat current) procs (Z.of_nat (length procs)) = Ok r ∧
       scan_result procs ((current + 1) `mod` length procs) r.
Proof.
  intros Hc Hlen Hfuel. unfold rr_next.
  rewrite c_rem_succ by done. simpl.
  set (start := ((current + 1) `mod` length procs)%nat).
  assert (start < length procs)%nat as Hs by (apply Nat.mod_upper_bound; lia).
  destruct (rr_next_loop_scan procs start Hs Hlen (length procs) 0%nat fuel)
    as (r & Hr & Hscan); [lia | lia | intros; lia |].
  rewrite Nat.add_0_r, Nat.mod_small in Hr by done. eauto.
Qed.

Lemma scan_result_none procs start :
  (start < length procs)%nat → scan_result procs start (-1) →
  ∀ i p, procs !! i = Some p → burst_left p = 0.
Proof.
  intros Hs [[_ Hzero]|(k & p & _ & Hr & _)] i q Hq; [|lia].
  destruct (mod_reaches start i (length procs)) as (j & Hj & Hji);
    [done | by eapply lookup_lt_Some |].
  apply (Hzero j q Hj). by rewrite Hji.
Qed.

Lemma scan_result_some procs start r :
  r ≠ -1 → scan_result procs start r →
  ∃ k p, (k < length procs)%nat ∧
         r = Z.of_nat ((start + k) `mod` length procs)%nat ∧
         procs !! ((start + k) `mod` length procs)%nat = Some p ∧
         burst_left p ≠ 0 ∧
         ∀ j q, (j < k)%nat →
                procs !! ((start + j) `mod` length procs)%nat = Some q →
                burst_left q = 0.
Proof. intros Hr [[? _]|H]; [done | exact H]. Qed.

(** ** The work left in a table *)

Lemma sumZ_insert l (i : nat) b b' :
  l !! i = Some b → sumZ (<[i := b']> l) = sumZ l - b + b'.
Proof.
  revert i. induction l as [|x l IH]; intros [|i] Hi; simplify_eq/=; [lia|].
  rewrite (IH i) by done. lia.
Qed.

Lemma sumZ_zero l : (∀ i b, l !! i = Some b → b = 0) → sumZ l = 0.
Proof.
  induction l as [|x l IH]; intros Hz; simpl; [done|].
  rewrite (Hz 0%nat x) by done. rewrite IH; [done|].
  intros i b Hb. by apply (Hz (S i)).
Qed.

Lemma sumZ_lookup_le l (i : nat) b :
  Forall (λ b, 0 ≤ b) l → l !! i = Some b → b ≤ sumZ l.
Proof.
  intros Hl. revert i. induction Hl as [|x l Hx Hl IH]; intros [|i] Hi;
    simplify_eq/=.
  - pose proof (sumZ_nonneg l Hl). lia.
  - specialize (IH i Hi). lia.
Qed.

Lemma bursts_ok_lookup procs i p :
  bursts_ok procs → procs !! i = Some p → 0 ≤ burst_left p ≤ CInt.INT_MAX.
Proof. intros Hok Hp. by apply (Forall_lookup_1 _ _ _ _ Hok Hp). Qed.

Lemma bursts_ok_nonneg procs :
  bursts_ok procs → Forall (λ b, 0 ≤ b) (burst_left <$> procs).
Proof.
  intros Hok. apply Forall_fmap.
  unfold bursts_ok in Hok. induction Hok; constructor; simpl; [lia | done].
Qed.

Lemma total_nonneg procs : bursts_ok procs → 0 ≤ total procs.
Proof. intros Hok. apply sumZ_nonneg. by apply bursts_ok_nonneg. Qed.

Lemma total_lookup_le procs i p :
  bursts_ok procs → procs !! i = Some p → burst_left p ≤ total procs.
Proof.
  intros Hok Hp. apply (sumZ_lookup_le _ i).
  - by apply bursts_ok_nonneg.
  - by rewrite list_lookup_fmap, Hp.
Qed.

Lemma total_zero procs :
  (∀ i p, procs !! i = Some p → burst_left p = 0) → total procs = 0.
Proof.
  intros Hz. apply sumZ_zero. intros i b.
  rewrite list_lookup_fmap. destruct (procs !! i) as [p|] eqn:Hp; [|done].
  intros [= <-]. by apply (Hz i).
Qed.

Lemma advance_bursts current amount procs p :
  procs !! current = Some p →
  burst_left <$> imap (advance current amount) procs =
  <[current := CInt.sub (burst_left p) amount]> (burst_left <$> procs).
Proof.
  intros Hp. apply list_eq. intros i.
  rewrite list_lookup_fmap, list_lookup_imap.
  destruct (decide (i = current)) as [->|Hne].
  - rewrite list_lookup_insert_eq
      by (rewrite length_fmap; by eapply lookup_lt_Some).
    rewrite Hp. simpl. unfold advance. by case_decide.
  - rewrite list_lookup_insert_ne, list_lookup_fmap by done.
    destruct (procs !! i) as [q|]; simpl; [|done].
    unfold advance. case_decide; [done|]. by destruct (0 <? burst_left q).
Qed.

Lemma sub_in_range b amount :
  0 ≤ b ≤ CInt.INT_MAX → 0 ≤ amount ≤ b → CInt.sub b amount = b - amount.
Proof.
  intros Hb Ha. unfold CInt.sub. apply wrap_id.
  int_lia.
Qed.

Lemma total_advance current amount procs p :
  bursts_ok procs → procs !! current = Some p → 0 ≤ amount ≤ burst_left p →
  total (imap (advance current amount) procs) = total procs - amount.
Proof.
  intros Hok Hp Ha. unfold total.
  rewrite (advance_bursts _ _ _ _ Hp).
  rewrite (sumZ_insert _ _ (burst_left p)) by (by rewrite list_lookup_fmap, Hp).
  rewrite sub_in_range; [lia | by eapply bursts_ok_lookup | done].
Qed.

Lemma bursts_ok_advance current amount procs p :
  bursts_ok procs → procs !! current = Some p → 0 ≤ amount ≤ burst_left p →
  bursts_ok (imap (advance current amount) procs).
Proof.
  intros Hok Hp Ha. apply Forall_lookup_2. intros i q.
  rewrite list_lookup_imap.
  destruct (procs !! i) as [q0|] eqn:Hq0; simpl; [|done].
  intros [= <-]. pose proof (bursts_ok_lookup _ _ _ Hok Hq0) as Hq0b.
  unfold advance. case_decide as Hic.
  - subst i. assert (q0 = p) as -> by congruence. simpl.
    rewrite sub_in_range by done. lia.
  - by destruct (0 <? burst_left q0).
Qed.

Lemma slice_bounds quantum b :
  0 < quantum → 0 < b → 1 ≤ slice quantum b ≤ b.
Proof. intros Hq Hb. unfold slice. destruct (Z.ltb_spec b quantum); lia. Qed.

(** ** One pass of the loop of rr_run *)

Lemma rr_body_live procs (current fuel : nat) quantum time p :
  Z.of_nat (length procs) ≤ CInt.INT_MAX → (length procs ≤ fuel)%nat →
  procs !! current = Some p → 0 < burst_left p →
  let amount := slice quantum (burst_left p) in
  let procs1 := imap (advance current amount) procs in
  ∃ r, rr_body fuel (Z.of_nat (length procs)) quantum procs (Z.of_nat current) time
       = Ok (procs1, CInt.add time amount, r) ∧
       scan_result procs1 ((current + 1) `mod` length procs) r.
Proof.
  intros Hlen Hfuel Hp Hlive amount procs1.
  assert (current < length procs)%nat as Hc by (by eapply lookup_lt_Some).
  assert (length procs1 = length procs) as Hlen1 by apply length_imap.
  destruct (rr_next_scan procs1 current fuel) as (r & Hr & Hscan);
    [by rewrite Hlen1..|].
  rewrite Hlen1 in Hr, Hscan. exists r. split; [|done].
  unfold rr_body. rewrite (arr_get_nat _ _ _ Hp). simpl.
  destruct (Z.ltb_spec 0 (burst_left p)); [|lia].
  fold (slice quantum (burst_left p)). fold amount.
  rewrite run_proc_imap by done. simpl. fold procs1. by rewrite Hr.
Qed.

Lemma rr_body_dead procs (current fuel : nat) quantum time p :
  Z.of_nat (length procs) ≤ CInt.INT_MAX → (length procs ≤ fuel)%nat →
  procs !! current = Some p → burst_left p ≤ 0 →
  ∃ r, rr_body fuel (Z.of_nat (length procs)) quantum procs (Z.of_nat current) time
       = Ok (procs, time, r) ∧
       scan_result procs ((current + 1) `mod` length procs) r.
Proof.
  intros Hlen Hfuel Hp Hdead.
  assert (current < length procs)%nat as Hc by (by eapply lookup_lt_Some).
  destruct (rr_next_scan procs current fuel) as (r & Hr & Hscan); [done..|].
  exists r. split; [|done].
  unfold rr_body. rewrite (arr_get_nat _ _ _ Hp). simpl.
  destruct (Z.ltb_spec 0 (burst_left p)); [lia|]. simpl. by rewrite Hr.
Qed.

(** On a table of non-negative bursts the scan ends with every process
    complete, or on a process that has work left. *)
Lemma scan_result_cases procs start r :
  bursts_ok procs → (start < length procs)%nat → scan_result procs start r →
  (r = -1 ∧ ∀ i p, procs !! i = Some p → burst_left p = 0) ∨
  (∃ c p, r = Z.of_nat c ∧ procs !! c = Some p ∧ 0 < burst_left p).
Proof.
  intros Hok Hs Hscan. destruct (decide (r = -1)) as [->|Hr].
  - left. split; [done|]. by eapply scan_result_none.
  - right. destruct (scan_result_some _ _ _ Hr Hscan) as (k & p & _ & -> & Hp & Hnz & _).
    eexists _, p. split; [done|]. split; [done|].
    pose proof (bursts_ok_lookup _ _ _ Hok Hp). lia.
Qed.

(** ** rr_run runs to completion *)

Section RunToCompletion.

Variables (len fuel : nat) (quantum : Z).
Hypothesis len_int : Z.of_nat len ≤ CInt.INT_MAX.
Hypothesis fuel_probes : (len ≤ fuel)%nat.
Hypothesis quantum_pos : 0 < quantum.

(** From a process with work left, [n] passes are enough when the work
    left in the table is at most [n]; the clock advances by that work. *)
Lemma rr_loop_live n :
  ∀ procs (current : nat) time p m,
    length procs = len → bursts_ok procs →
    procs !! current = Some p → 0 < burst_left p →
    total procs ≤ Z.of_nat n → (n ≤ m)%nat →
    ∃ procs',
      rr_loop fuel m (Z.of_nat len) quantum procs (Z.of_nat current) time
      = Ok (procs', CInt.wrap (time + total procs)) ∧
      length procs' = len ∧
      (∀ i q, procs' !! i = Some q → burst_left q = 0) ∧
      Z.of_nat (rr_dispatches fuel m (Z.of_nat len) quantum procs
                  (Z.of_nat current) time) ≤ total procs.
Proof.
  induction n as [|n IH]; intros procs current time p m Hl Hok Hp Hlive Htot Hm.
  { pose proof (total_lookup_le _ _ _ Hok Hp). lia. }
  destruct m as [|m]; [lia|].
  destruct (rr_body_live procs current fuel quantum time p)
    as (r & Hbody & Hscan); [by rewrite Hl | by rewrite Hl | done | done |].
  rewrite Hl in Hbody, Hscan.
  pose proof (slice_bounds quantum (burst_left p) quantum_pos Hlive) as Ha.
  set (amount := slice quantum (burst_left p)) in *.
  set (procs1 := imap (advance current amount) procs) in *.
  assert (length procs1 = len) as Hlen1 by (by unfold procs1; rewrite length_imap).
  assert (bursts_ok procs1) as Hok1
    by (apply (bursts_ok_advance _ _ _ p); [done | done | lia]).
  assert (total procs1 = total procs - amount) as Htot1
    by (apply (total_advance _ _ _ p); [done | done | lia]).
  assert (current < len)%nat as Hc by (rewrite <- Hl; by eapply lookup_lt_Some).
  simpl. rewrite (arr_get_nat _ _ _ Hp), Hbody. simpl.
  destruct (Z.ltb_spec 0 (burst_left p)); [|lia].
  destruct (scan_result_cases procs1 ((current + 1) `mod` len) r Hok1)
    as [[-> Hzero]|(c & pc & -> & Hpc & Hc1)];
    [rewrite Hlen1; apply Nat.mod_upper_bound; lia | done | |].
  - simpl. exists procs1. pose proof (total_zero _ Hzero) as Hz.
    repeat split; [|done|done|lia].
    unfold CInt.add. do 3 f_equal. lia.
  - destruct (Z.eqb_spec (Z.of_nat c) (-1)); [lia|].
    destruct (IH procs1 c (CInt.add time amount) pc m)
      as (procs' & Hrun & Hl' & Hz' & Hd'); [done | done | done | done | lia | lia |].
    exists procs'. rewrite Hrun. repeat split; [|lia|done|lia].
    unfold CInt.add. rewrite wrap_add_l. do 3 f_equal. lia.
Qed.

(** From any index: one more pass when the process at [current] is
    complete. *)
Lemma rr_loop_any procs (current : nat) time m :
  length procs = len → bursts_ok procs → (current < len)%nat →
  CInt.in_range time →
  (Z.to_nat (total procs) + 1 ≤ m)%nat →
  ∃ procs',
    rr_loop fuel m (Z.of_nat len) quantum procs (Z.of_nat current) time
    = Ok (procs', CInt.wrap (time + total procs)) ∧
    length procs' = len ∧
    (∀ i q, procs' !! i = Some q → burst_left q = 0) ∧
    Z.of_nat (rr_dispatches fuel m (Z.of_nat len) quantum procs
                (Z.of_nat current) time) ≤ total procs.
Proof.
  intros Hl Hok Hc Htime Hm.
  pose proof (total_nonneg _ Hok) as Hnn.
  destruct (lookup_lt_is_Some_2 procs current) as [p Hp]; [lia|].
  pose proof (bursts_ok_lookup _ _ _ Hok Hp) as Hpb.
  destruct (decide (0 < burst_left p)) as [Hlive|Hdead].
  - apply (rr_loop_live (Z.to_nat (total procs)) procs current time p m);
      try done; lia.
  - destruct m as [|m]; [lia|].
    destruct (rr_body_dead procs current fuel quantum time p)
      as (r & Hbody & Hscan); [by rewrite Hl | by rewrite Hl | done | lia |].
    rewrite Hl in Hbody, Hscan.
    simpl. rewrite (arr_get_nat _ _ _ Hp), Hbody. simpl.
    destruct (Z.ltb_spec 0 (burst_left p)); [lia|].
    destruct (scan_result_cases procs ((current + 1) `mod` len) r Hok)
      as [[-> Hzero]|(c & pc & -> & Hpc & Hc1)];
      [rewrite Hl; apply Nat.mod_upper_bound; lia | done | |].
    + simpl. exists procs. rewrite (total_zero _ Hzero), Z.add_0_r.
      rewrite wrap_id by done. repeat split; done.
    + destruct (Z.eqb_spec (Z.of_nat c) (-1)); [lia|].
      apply (rr_loop_live (Z.to_nat (total procs)) procs c time pc m);
        try done; lia.
Qed.

End RunToCompletion.

(** ** Tables built by init_procs *)

Lemma init_procs_inv bursts procs :
  init_procs true bursts (Z.of_nat (length bursts)) = Ok (Some procs) →
  procs = table_of bursts.
Proof. rewrite init_procs_table. by intros [= <-]. Qed.

Lemma table_of_bursts bursts : burst_left <$> table_of bursts = bursts.
Proof.
  apply list_eq. intros i. rewrite list_lookup_fmap, table_of_lookup.
  by destruct (bursts !! i).
Qed.

Lemma total_table_of bursts : total (table_of bursts) = sumZ bursts.
Proof. unfold total. by rewrite table_of_bursts. Qed.

Lemma bursts_ok_table_of bursts :
  Forall (λ b, 0 ≤ b ≤ CInt.INT_MAX) bursts → bursts_ok (table_of bursts).
Proof.
  intros Hb. apply Forall_lookup_2. intros i p.
  rewrite table_of_lookup. destruct (bursts !! i) as [b|] eqn:Hi; [|done].
  intros [= <-]. simpl. by apply (Forall_lookup_1 _ _ _ _ Hb Hi).
Qed.

Lemma rr_run_table_of bursts quantum (fuel : nat) :
  bursts ≠ [] → valid_bursts bursts → 0 < quantum →
  (length bursts ≤ fuel)%nat → (Z.to_nat (sumZ bursts) + 1 ≤ fuel)%nat →
  ∃ procs',
    rr_run fuel (table_of bursts) (Z.of_nat (length bursts)) quantum
    = Ok (procs', CInt.wrap (sumZ bursts)) ∧
    length procs' = length bursts ∧
    (∀ i q, procs' !! i = Some q → burst_left q = 0) ∧
    Z.of_nat (rr_dispatches fuel fuel (Z.of_nat (length bursts)) quantum
                (table_of bursts) 0 0) ≤ sumZ bursts.
Proof.
  intros Hne [Hb Hlen] Hq Hf1 Hf2.
  destruct (rr_loop_any (length bursts) fuel quantum Hlen Hf1 Hq
              (table_of bursts) 0 0 fuel)
    as (procs' & Hrun & Hrest); try done.
  - apply table_of_length.
  - by apply bursts_ok_table_of.
  - destruct bursts; [done | simpl; lia].
  - by rewrite total_table_of.
  - rewrite total_table_of in Hrun, Hrest. simpl in Hrun. by exists procs'.
Qed.

(** ** The claims on the elapsed time and on termination *)

(** C1 (amended).  For every table built from non-negative burst lengths
    whose sum is at most [INT_MAX], [fcfs_run] returns exactly the sum of
    the burst lengths; and when moreover the table is not empty, [rr_run]
    returns exactly that sum for every positive quantum. *)
Theorem runs_return_total_work bursts procs quantum :
  valid_bursts bursts → sumZ bursts ≤ CInt.INT_MAX →
  init_procs true bursts (Z.of_nat (length bursts)) = Ok (Some procs) →
  (∃ procs', fcfs_run procs (Z.of_nat (length bursts)) = Ok (procs', sumZ bursts)) ∧
  (bursts ≠ [] → 0 < quantum →
   ∀ fuel : nat,
     (length bursts ≤ fuel)%nat → (Z.to_nat (sumZ bursts) + 1 ≤ fuel)%nat →
     ∃ procs', rr_run fuel procs (Z.of_nat (length bursts)) quantum
               = Ok (procs', sumZ bursts)).
Proof.
  intros Hv Hsum Hinit. apply init_procs_inv in Hinit. subst procs.
  assert (CInt.wrap (sumZ bursts) = sumZ bursts) as Hw.
  { apply wrap_id. destruct Hv as [Hb _].
    assert (0 ≤ sumZ bursts).
    { apply sumZ_nonneg. eapply Forall_impl; [|exact Hb]. simpl. lia. }
    int_lia. }
  split.
  - rewrite fcfs_run_closed, Hw. eauto.
  - intros Hne Hq fuel Hf1 Hf2.
    destruct (rr_run_table_of bursts quantum fuel) as (procs' & Hrun & _); try done.
    rewrite Hw in Hrun. eauto.
Qed.

Lemma runs_return_total_work_witness :
  valid_bursts [5; 3; 8] ∧ sumZ [5; 3; 8] ≤ CInt.INT_MAX ∧
  (∃ procs', fcfs_run (table_of [5; 3; 8]) 3 = Ok (procs', 16)) ∧
  (∃ procs', rr_run 17 (table_of [5; 3; 8]) 3 3 = Ok (procs', 16)).
Proof.
  assert (valid_bursts [5; 3; 8]) as Hv.
  { split; [int_list | int_lia]. }
  assert (sumZ [5; 3; 8] ≤ CInt.INT_MAX) as Hs
    by int_lia.
  destruct (runs_return_total_work [5; 3; 8] (table_of [5; 3; 8]) 3 Hv Hs)
    as [Hf Hr]; [reflexivity|].
  split; [exact Hv|]. split; [exact Hs|]. split; [exact Hf|].
  apply (Hr ltac:(done) ltac:(lia) 17%nat); simpl; lia.
Defined.

(** C1 (as stated) fails: the bursts [INT_MAX] and 1 are non-negative
    [int]s, their sum 2147483648 is not an [int], and [fcfs_run] returns
    [INT_MIN]. *)
Lemma fcfs_run_sum_overflow :
  valid_bursts [2147483647; 1] ∧
  init_procs true [2147483647; 1] 2 = Ok (Some (table_of [2147483647; 1])) ∧
  fcfs_run (table_of [2147483647; 1]) 2 =
    Ok ([ {| pid := 0; burst_left := 0; wait := 0 |};
          {| pid := 1; burst_left := 0; wait := 2147483647 |} ], -2147483648) ∧
  ¬ ∃ procs', fcfs_run (table_of [2147483647; 1]) 2
              = Ok (procs', sumZ [2147483647; 1]).
Proof.
  split; [|split; [|split]].
  - split; [int_list | int_lia].
  - reflexivity.
  - reflexivity.
  - intros [procs' H]. vm_compute in H. discriminate H.
Qed.

(** C2.  On the empty table [fcfs_run] returns 0.  [rr_run] does not: its
    first pass reads [procs[0]], which is outside of the empty block, and
    [rr_next] then divides by [plen = 0]; no amount of fuel yields a
    value. *)
Theorem empty_table_runs :
  init_procs true [] 0 = Ok (Some []) ∧
  fcfs_run [] 0 = Ok ([], 0) ∧
  (∀ fuel quantum, rr_run (S fuel) [] 0 quantum = Err OutOfBounds) ∧
  (∀ fuel quantum r, rr_run fuel [] 0 quantum ≠ Ok r) ∧
  (∀ fuel current procs, rr_next fuel current procs 0 = Err DivByZero).
Proof.
  split; [done|]. split; [done|]. split; [done|]. split.
  - intros [|fuel] quantum r; done.
  - done.
Qed.

(** C5.  For every non-empty table of non-negative bursts and every
    positive quantum, [rr_run] terminates: a pass that selects a process
    with work left strictly decreases its remaining burst, the passes in
    which a process is dispatched are at most [sum(bursts)], and with
    fuel for [sum(bursts) + 1] passes the run returns. *)
Theorem rr_run_terminates bursts procs quantum :
  bursts ≠ [] → valid_bursts bursts → 0 < quantum →
  init_procs true bursts (Z.of_nat (length bursts)) = Ok (Some procs) →
  ∀ fuel : nat,
    (length bursts ≤ fuel)%nat → (Z.to_nat (sumZ bursts) + 1 ≤ fuel)%nat →
    (∃ r, rr_run fuel procs (Z.of_nat (length bursts)) quantum = Ok r) ∧
    Z.of_nat (rr_dispatches fuel fuel (Z.of_nat (length bursts)) quantum procs 0 0)
      ≤ sumZ bursts ∧
    (∀ tbl (current : nat) time p,
       length tbl = length bursts → tbl !! current = Some p →
       0 < burst_left p ≤ CInt.INT_MAX →
       ∃ tbl1 time1 next p1,
         rr_body fuel (Z.of_nat (length bursts)) quantum tbl (Z.of_nat current) time
         = Ok (tbl1, time1, next) ∧
         tbl1 !! current = Some p1 ∧ 0 ≤ burst_left p1 < burst_left p).
Proof.
  intros Hne Hv Hq Hinit fuel Hf1 Hf2.
  apply init_procs_inv in Hinit. subst procs.
  destruct (rr_run_table_of bursts quantum fuel) as (procs' & Hrun & _ & _ & Hd);
    try done.
  split; [eauto|]. split; [done|].
  intros tbl current time p Hl Hp Hlive. rewrite <- Hl.
  destruct (rr_body_live tbl current fuel quantum time p) as (r & Hbody & _);
    [rewrite Hl; apply Hv | lia | done | lia |].
  eexists _, _, _, _. split; [exact Hbody|].
  rewrite list_lookup_imap, Hp. simpl. split; [done|].
  pose proof (slice_bounds quantum (burst_left p) Hq ltac:(lia)).
  unfold advance. case_decide; [|done]. simpl.
  rewrite sub_in_range by lia. lia.
Qed.

Lemma rr_run_terminates_witness :
  (∃ r, rr_run 17 (table_of [5; 3; 8]) 3 3 = Ok r) ∧
  Z.of_nat (rr_dispatches 17 17 3 3 (table_of [5; 3; 8]) 0 0) ≤ 16.
Proof.
  assert (valid_bursts [5; 3; 8]) as Hv.
  { split; [int_list | int_lia]. }
  destruct (rr_run_terminates [5; 3; 8] (table_of [5; 3; 8]) 3
              ltac:(done) Hv ltac:(lia) ltac:(reflexivity) 17%nat)
    as (Hr & Hd & _); [simpl; lia | simpl; lia |].
  split; [exact Hr | exact Hd].
Defined.

(** C8.  The table built from the bursts [7], with quantum 3: [rr_run]
    returns 7 after three passes, and the first call of [rr_next], on the
    only process, which has work left, returns its index 0 and not -1. *)
Theorem rr_run_single_process :
  init_procs true [7] 1 = Ok (Some [ {| pid := 0; burst_left := 7; wait := 0 |} ]) ∧
  (∀ k : nat,
     rr_run (3 + k) [ {| pid := 0; burst_left := 7; wait := 0 |} ] 1 3
     = Ok ([ {| pid := 0; burst_left := 0; wait := 0 |} ], 7)) ∧
  (∀ k : nat,
     rr_next (1 + k) 0 [ {| pid := 0; burst_left := 4; wait := 0 |} ] 1 = Ok 0).
Proof.
  split; [reflexivity|]. split; intros k; reflexivity.
Qed.

(** ** The claims on run_proc *)

Lemma run_proc_Z procs target amount :
  0 ≤ target < Z.of_nat (length procs) →
  run_proc procs (Z.of_nat (length procs)) target amount =
  Ok (imap (advance (Z.to_nat target) amount) procs).
Proof.
  intros Ht. rewrite <- (Z2Nat.id target) at 1 by lia.
  apply run_proc_imap. lia.
Qed.

(** C3 (amended).  For every table of [int] fields, every valid index
    [target] and every [amount] with [1 <= amount <= burst_left] of the
    target, [run_proc] decreases the target's [burst_left] by exactly
    [amount], increases [wait] by exactly [amount] for every other process
    whose [burst_left] is positive and whose [wait + amount] does not
    exceed [INT_MAX], and leaves unchanged the [wait] of the target and of
    every process whose [burst_left] is 0. *)
Theorem run_proc_effect procs target amount pt :
  Forall pcb_int procs → 0 ≤ target < Z.of_nat (length procs) →
  procs !! Z.to_nat target = Some pt → 1 ≤ amount ≤ burst_left pt →
  ∃ procs',
    run_proc procs (Z.of_nat (length procs)) target amount = Ok procs' ∧
    length procs' = length procs ∧
    ∀ (i : nat) p, procs !! i = Some p →
      ∃ p', procs' !! i = Some p' ∧ pid p' = pid p ∧
        (Z.of_nat i = target →
           burst_left p' = burst_left p - amount ∧ wait p' = wait p) ∧
        (Z.of_nat i ≠ target →
           burst_left p' = burst_left p ∧
           (0 < burst_left p → wait p + amount ≤ CInt.INT_MAX →
            wait p' = wait p + amount) ∧
           (burst_left p ≤ 0 → wait p' = wait p)).
Proof.
  intros Hint Ht Hpt Ha. eexists. split; [by apply run_proc_Z|].
  split; [apply length_imap|].
  intros i p Hp. rewrite list_lookup_imap, Hp. simpl. eexists. split; [done|].
  destruct (Forall_lookup_1 _ _ _ _ Hint Hp) as (_ & Hb & Hw).
  unfold CInt.in_range, CInt.INT_MIN, CInt.INT_MAX in *.
  unfold advance. case_decide as Hi.
  - subst i. assert (p = pt) as -> by congruence. simpl.
    split; [done|]. split; [|lia]. intros _.
    unfold CInt.sub. rewrite wrap_id; [done|].
    int_lia.
  - destruct (Z.ltb_spec 0 (burst_left p)); simpl.
    + split; [done|]. split; [lia|]. intros _. split; [done|].
      split; [|lia]. intros _ Hle. unfold CInt.add. apply wrap_id.
      int_lia.
    + split; [done|]. split; [lia|]. intros _. split; [done|]. split; [lia|done].
Qed.

Lemma run_proc_effect_witness :
  ∃ procs',
    run_proc (table_of [5; 3; 8]) 3 1 2 = Ok procs' ∧
    length procs' = 3%nat ∧
    ∀ (i : nat) p, table_of [5; 3; 8] !! i = Some p →
      ∃ p', procs' !! i = Some p' ∧ pid p' = pid p ∧
        (Z.of_nat i = 1 →
           burst_left p' = burst_left p - 2 ∧ wait p' = wait p) ∧
        (Z.of_nat i ≠ 1 →
           burst_left p' = burst_left p ∧
           (0 < burst_left p → wait p + 2 ≤ CInt.INT_MAX →
            wait p' = wait p + 2) ∧
           (burst_left p ≤ 0 → wait p' = wait p)).
Proof.
  apply (run_proc_effect (table_of [5; 3; 8]) 1 2
           {| pid := 1; burst_left := 3; wait := 0 |}).
  - int_list.
  - simpl. lia.
  - reflexivity.
  - simpl. lia.
Defined.

(** C3 (as stated) fails.  After [fcfs_run] has run the first of the
    bursts [INT_MAX; 1; 1], process 2 has waited [INT_MAX]; running process
    1 for 1 does not increase that wait by 1. *)
Lemma run_proc_wait_overflow :
  let procs := [ {| pid := 0; burst_left := 0; wait := 0 |};
                 {| pid := 1; burst_left := 1; wait := 2147483647 |};
                 {| pid := 2; burst_left := 1; wait := 2147483647 |} ] in
  run_proc (table_of [2147483647; 1; 1]) 3 0 2147483647 = Ok procs ∧
  Forall pcb_int procs ∧
  run_proc procs 3 1 1 =
    Ok [ {| pid := 0; burst_left := 0; wait := 0 |};
         {| pid := 1; burst_left := 0; wait := 2147483647 |};
         {| pid := 2; burst_left := 1; wait := -2147483648 |} ] ∧
  -2147483648 ≠ 2147483647 + 1.
Proof.
  split; [reflexivity|]. split; [|split; [reflexivity | lia]].
  int_list.
Qed.

(** C6 (amended).  Under the preconditions of [run_proc] ([target] in
    range, [amount >= 1], [burst_left] of the target at least [amount]),
    if no process has a negative [burst_left] or [wait] before the call and
    [wait + amount] does not exceed [INT_MAX] for the other processes with
    work left, then no process has a negative [burst_left] or [wait] after
    the call. *)
Theorem run_proc_nonneg procs target amount pt :
  Forall pcb_int procs → 0 ≤ target < Z.of_nat (length procs) →
  procs !! Z.to_nat target = Some pt → 1 ≤ amount ≤ burst_left pt →
  Forall pcb_nonneg procs →
  (∀ (i : nat) p, procs !! i = Some p → Z.of_nat i ≠ target →
                  0 < burst_left p → wait p + amount ≤ CInt.INT_MAX) →
  ∃ procs',
    run_proc procs (Z.of_nat (length procs)) target amount = Ok procs' ∧
    Forall pcb_nonneg procs'.
Proof.
  intros Hint Ht Hpt Ha Hnn Hfit. eexists. split; [by apply run_proc_Z|].
  apply Forall_lookup_2. intros i p'. rewrite list_lookup_imap.
  destruct (procs !! i) as [p|] eqn:Hp; [|done]. intros [= <-].
  destruct (Forall_lookup_1 _ _ _ _ Hint Hp) as (_ & Hb & Hw).
  destruct (Forall_lookup_1 _ _ _ _ Hnn Hp) as [Hb0 Hw0].
  unfold CInt.in_range, CInt.INT_MIN, CInt.INT_MAX in *.
  unfold advance, pcb_nonneg. case_decide as Hi.
  - subst i. assert (p = pt) as -> by congruence. simpl.
    rewrite sub_in_range by int_lia. lia.
  - destruct (Z.ltb_spec 0 (burst_left p)); simpl; [|lia].
    assert (wait p + amount ≤ 2147483647) by (apply (Hfit i p); [done|lia|done]).
    unfold CInt.add. rewrite wrap_id; [lia|].
    int_lia.
Qed.

Lemma run_proc_nonneg_witness :
  Forall pcb_nonneg (table_of [5; 3; 8]) ∧
  ∃ procs', run_proc (table_of [5; 3; 8]) 3 1 2 = Ok procs' ∧
            Forall pcb_nonneg procs'.
Proof.
  assert (Forall pcb_nonneg (table_of [5; 3; 8])) as Hnn
    by (repeat constructor; simpl; lia).
  split; [exact Hnn|].
  apply (run_proc_nonneg (table_of [5; 3; 8]) 1 2
           {| pid := 1; burst_left := 3; wait := 0 |}).
  - int_list.
  - simpl. lia.
  - reflexivity.
  - simpl. lia.
  - exact Hnn.
  - intros [|[|[|i]]] p; simpl; intros [= <-]; simpl;
      unfold CInt.INT_MAX; lia.
Defined.

(** C6 (as stated) fails: the preconditions hold and no field is negative
    before the call, and process 1 has a negative [wait] after it. *)
Lemma run_proc_negative_wait :
  let procs := [ {| pid := 0; burst_left := 1; wait := 0 |};
                 {| pid := 1; burst_left := 1; wait := 2147483647 |} ] in
  Forall pcb_int procs ∧ Forall pcb_nonneg procs ∧
  run_proc procs 2 0 1 =
    Ok [ {| pid := 0; burst_left := 0; wait := 0 |};
         {| pid := 1; burst_left := 1; wait := -2147483648 |} ] ∧
  ¬ ∃ procs', run_proc procs 2 0 1 = Ok procs' ∧ Forall pcb_nonneg procs'.
Proof.
  split; [|split; [|split]].
  - int_list.
  - repeat constructor; simpl; lia.
  - reflexivity.
  - intros (procs' & Hrun & Hnn). vm_compute in Hrun.
    injection Hrun as <-.
    destruct (Forall_lookup_1 _ _ 1%nat _ Hnn eq_refl) as [_ Hw].
    simpl in Hw. lia.
Qed.

(** ** The claim on rr_next *)

Lemma circ_index_Z (c j n : nat) :
  (0 < n)%nat →
  Z.of_nat ((((c + 1) `mod` n)%nat + j) `mod` n)%nat =
  (Z.of_nat c + 1 + Z.of_nat j) `mod` Z.of_nat n.
Proof.
  intros Hn. rewrite Nat.Div0.add_mod_idemp_l, Nat2Z.inj_mod. f_equal. lia.
Qed.

(** C4.  For every non-empty table (of non-negative bursts, as the data
    model has it) and every index [current] in range, [rr_next] returns
    the first index whose [burst_left] is positive in the circular order
    that starts at [(current + 1) mod len]; it returns -1 exactly when
    every [burst_left] is 0; and on a table of one process with work left
    it returns [current] itself. *)
Theorem rr_next_first_live procs current (fuel : nat) :
  procs ≠ [] → Z.of_nat (length procs) ≤ CInt.INT_MAX →
  Forall (λ p, 0 ≤ burst_left p) procs →
  0 ≤ current < Z.of_nat (length procs) → (length procs ≤ fuel)%nat →
  ∃ r,
    rr_next fuel current procs (Z.of_nat (length procs)) = Ok r ∧
    (r = -1 ↔ ∀ i p, procs !! i = Some p → burst_left p = 0) ∧
    (r ≠ -1 →
     ∃ k, 0 ≤ k < Z.of_nat (length procs) ∧
          r = (current + 1 + k) `mod` Z.of_nat (length procs) ∧
          (∃ p, procs !! Z.to_nat r = Some p ∧ 0 < burst_left p) ∧
          ∀ j, 0 ≤ j < k →
               ∃ q, procs !! Z.to_nat ((current + 1 + j) `mod` Z.of_nat (length procs))
                    = Some q ∧ burst_left q = 0) ∧
    (∀ p, procs = [p] → 0 < burst_left p → r = current).
Proof.
  intros Hne Hlen Hnn Hc Hfuel.
  assert (0 < length procs)%nat as Hpos by (destruct procs; [done | simpl; lia]).
  set (n := length procs) in *.
  assert (∃ c : nat, current = Z.of_nat c) as [c ->]
    by (exists (Z.to_nat current); lia).
  assert (c < n)%nat as Hcn by lia.
  destruct (rr_next_scan procs c fuel Hcn Hlen Hfuel) as (r & Hr & Hscan).
  fold n in Hr, Hscan.
  assert ((c + 1) `mod` n < n)%nat as Hs by (apply Nat.mod_upper_bound; lia).
  assert (r ≠ -1 →
          ∃ k, 0 ≤ k < Z.of_nat n ∧
               r = (Z.of_nat c + 1 + k) `mod` Z.of_nat n ∧
               (∃ p, procs !! Z.to_nat r = Some p ∧ 0 < burst_left p) ∧
               ∀ j, 0 ≤ j < k →
                    ∃ q, procs !! Z.to_nat ((Z.of_nat c + 1 + j) `mod` Z.of_nat n)
                         = Some q ∧ burst_left q = 0) as Hsome.
  { intros Hr1.
    destruct (scan_result_some _ _ _ Hr1 Hscan) as (k & p & Hk & -> & Hp & Hnz & Hz).
    fold n in Hk, Hp, Hz |- *.
    exists (Z.of_nat k). split; [lia|]. split; [by apply circ_index_Z|].
    split.
    - exists p. rewrite Nat2Z.id. split; [done|].
      pose proof (Forall_lookup_1 _ _ _ _ Hnn Hp) as Hp0. simpl in Hp0. lia.
    - intros j Hj.
      assert (j = Z.of_nat (Z.to_nat j)) as -> by lia.
      rewrite <- circ_index_Z, Nat2Z.id by done.
      destruct (lookup_lt_is_Some_2 procs
                  ((((c + 1) `mod` n)%nat + Z.to_nat j) `mod` n)%nat) as [q Hq];
        [apply Nat.mod_upper_bound; lia|].
      exists q. split; [done|]. apply (Hz (Z.to_nat j) q); [lia | done]. }
  exists r. split; [done|]. split; [|split; [done|]].
  - split.
    + intros ->. by apply (scan_result_none procs ((c + 1) `mod` n)%nat).
    + intros Hzero. destruct (decide (r = -1)) as [|Hr1]; [done|].
      destruct (Hsome Hr1) as (_ & _ & _ & (p & Hp & Hlive) & _).
      specialize (Hzero _ _ Hp). lia.
  - intros p -> Hlive. destruct (decide (r = -1)) as [->|Hr1].
    + pose proof (scan_result_none _ _ Hs Hscan 0%nat p eq_refl). lia.
    + destruct (Hsome Hr1) as (k & _ & -> & _). simpl in *.
      rewrite Z.mod_1_r. lia.
Qed.

Lemma rr_next_first_live_witness :
  ∃ r,
    rr_next 3 2 (table_of [0; 3; 8]) 3 = Ok r ∧
    (r = -1 ↔ ∀ i p, table_of [0; 3; 8] !! i = Some p → burst_left p = 0) ∧
    (r ≠ -1 →
     ∃ k, 0 ≤ k < 3 ∧ r = (2 + 1 + k) `mod` 3 ∧
          (∃ p, table_of [0; 3; 8] !! Z.to_nat r = Some p ∧ 0 < burst_left p) ∧
          ∀ j, 0 ≤ j < k →
               ∃ q, table_of [0; 3; 8] !! Z.to_nat ((2 + 1 + j) `mod` 3) = Some q ∧
                    burst_left q = 0) ∧
    (∀ p, table_of [0; 3; 8] = [p] → 0 < burst_left p → r = 2).
Proof.
  apply (rr_next_first_live (table_of [0; 3; 8]) 2 3).
  - done.
  - int_lia.
  - repeat constructor; simpl; lia.
  - simpl. lia.
  - simpl. lia.
Defined.

(** ** The claim on the waits of fcfs_run *)

(** C9 (amended).  For every table built from non-negative bursts,
    [fcfs_run] leaves every process with [burst_left] 0; a process whose
    initial burst is 0 has [wait] 0; and a process [i] whose initial burst
    is positive has [wait] equal to the sum of the initial bursts of the
    processes [0..i-1], when that sum is at most [INT_MAX]. *)
Theorem fcfs_run_waits bursts procs :
  valid_bursts bursts →
  init_procs true bursts (Z.of_nat (length bursts)) = Ok (Some procs) →
  ∃ procs' t,
    fcfs_run procs (Z.of_nat (length bursts)) = Ok (procs', t) ∧
    length procs' = length bursts ∧
    ∀ (i : nat) b, bursts !! i = Some b →
      ∃ p, procs' !! i = Some p ∧ burst_left p = 0 ∧
           (b = 0 → wait p = 0) ∧
           (0 < b → sumZ (take i bursts) ≤ CInt.INT_MAX →
            wait p = sumZ (take i bursts)).
Proof.
  intros [Hb _] Hinit. apply init_procs_inv in Hinit. subst procs.
  eexists _, _. split; [apply fcfs_run_closed|].
  split; [apply fcfs_table_length|].
  intros i b Hi. rewrite fcfs_table_lookup, Hi. simpl. eexists. split; [done|].
  pose proof (lookup_lt_Some _ _ _ Hi) as Hlt. simpl.
  split; [by case_decide; [|lia]|]. split.
  - intros ->. done.
  - intros Hpos Hfit. destruct (Z.ltb_spec 0 b); [|lia].
    rewrite Nat.min_l by lia. apply wrap_id.
    assert (0 ≤ sumZ (take i bursts)).
    { apply sumZ_nonneg. apply Forall_take.
      eapply Forall_impl; [|exact Hb]. simpl. lia. }
    int_lia.
Qed.

Lemma fcfs_run_waits_witness :
  ∃ procs' t,
    fcfs_run (table_of [5; 3; 8]) 3 = Ok (procs', t) ∧
    length procs' = 3%nat ∧
    ∀ (i : nat) b, [5; 3; 8] !! i = Some b →
      ∃ p, procs' !! i = Some p ∧ burst_left p = 0 ∧
           (b = 0 → wait p = 0) ∧
           (0 < b → sumZ (take i [5; 3; 8]) ≤ CInt.INT_MAX →
            wait p = sumZ (take i [5; 3; 8])).
Proof.
  apply (fcfs_run_waits [5; 3; 8] (table_of [5; 3; 8])).
  - split; [int_list | int_lia].
  - reflexivity.
Defined.

(** C9 (as stated) fails: with the bursts [INT_MAX; 1; 1], process 2 has a
    positive burst and ends with the wait [INT_MIN], not with the sum
    2147483648 of the two bursts before it. *)
Lemma fcfs_run_wait_overflow :
  valid_bursts [2147483647; 1; 1] ∧
  init_procs true [2147483647; 1; 1] 3 = Ok (Some (table_of [2147483647; 1; 1])) ∧
  fcfs_run (table_of [2147483647; 1; 1]) 3 =
    Ok ([ {| pid := 0; burst_left := 0; wait := 0 |};
          {| pid := 1; burst_left := 0; wait := 2147483647 |};
          {| pid := 2; burst_left := 0; wait := -2147483648 |} ], -2147483647) ∧
  sumZ (take 2 [2147483647; 1; 1]) = 2147483648.
Proof.
  split; [|split; [|split]]; try reflexivity.
  split; [int_list | int_lia].
Qed.

(** ** Round robin with a quantum that covers every burst *)

Lemma rr_body_live_eq (fuel : nat) quantum procs (current : nat) time p r :
  procs !! current = Some p → 0 < burst_left p →
  rr_next fuel (Z.of_nat current)
    (imap (advance current (slice quantum (burst_left p))) procs)
    (Z.of_nat (length procs)) = Ok r →
  rr_body fuel (Z.of_nat (length procs)) quantum procs (Z.of_nat current) time =
  Ok (imap (advance current (slice quantum (burst_left p))) procs,
      CInt.add time (slice quantum (burst_left p)), r).
Proof.
  intros Hp Hlive Hr. unfold rr_body. rewrite (arr_get_nat _ _ _ Hp). simpl.
  destruct (Z.ltb_spec 0 (burst_left p)); [|lia].
  fold (slice quantum (burst_left p)).
  rewrite run_proc_imap by (by eapply lookup_lt_Some). simpl. by rewrite Hr.
Qed.

Lemma rr_body_dead_eq (fuel : nat) quantum procs (current : nat) time p r :
  procs !! current = Some p → burst_left p ≤ 0 →
  rr_next fuel (Z.of_nat current) procs (Z.of_nat (length procs)) = Ok r →
  rr_body fuel (Z.of_nat (length procs)) quantum procs (Z.of_nat current) time =
  Ok (procs, time, r).
Proof.
  intros Hp Hdead Hr. unfold rr_body. rewrite (arr_get_nat _ _ _ Hp). simpl.
  destruct (Z.ltb_spec 0 (burst_left p)); [lia|]. simpl. by rewrite Hr.
Qed.

Lemma fcfs_table_skip1 bursts k :
  bursts !! k = Some 0 →
  fcfs_table bursts (S k) = fcfs_table bursts k ∧
  sumZ (take (S k) bursts) = sumZ (take k bursts).
Proof.
  intros Hk. pose proof (sumZ_take_S _ _ _ Hk) as Hsum.
  split; [|lia]. unfold fcfs_table. apply imap_ext. intros i b Hi.
  unfold fcfs_at. f_equal.
  - repeat case_decide; try done; try lia.
    assert (i = k) as -> by lia. congruence.
  - destruct (Z.ltb_spec 0 b); [|done].
    destruct (decide (i ≤ k)%nat) as [Hle|Hgt].
    + destruct (decide (i = k)) as [->|Hne].
      { assert (b = 0) by congruence. lia. }
      by rewrite !Nat.min_l by lia.
    + rewrite !Nat.min_r by lia. f_equal. lia.
Qed.

Lemma fcfs_table_skip bursts k d :
  (∀ i, (k ≤ i < k + d)%nat → bursts !! i = Some 0) →
  fcfs_table bursts (k + d) = fcfs_table bursts k ∧
  sumZ (take (k + d) bursts) = sumZ (take k bursts).
Proof.
  induction d as [|d IH]; intros Hz.
  - by rewrite Nat.add_0_r.
  - destruct IH as [IH1 IH2]; [intros i Hi; apply Hz; lia|].
    destruct (fcfs_table_skip1 bursts (k + d)) as [H1 H2]; [apply Hz; lia|].
    replace (k + S d)%nat with (S (k + d)) by lia.
    split; congruence.
Qed.

Lemma fcfs_table_live bursts k i p :
  Forall (λ b, 0 ≤ b) bursts →
  fcfs_table bursts k !! i = Some p → burst_left p ≠ 0 →
  (k ≤ i)%nat ∧ bursts !! i = Some (burst_left p) ∧ 0 < burst_left p.
Proof.
  intros Hb. rewrite fcfs_table_lookup.
  destruct (bursts !! i) as [b|] eqn:Hi; [|done]. intros [= <-]. simpl.
  pose proof (Forall_lookup_1 _ _ _ _ Hb Hi) as Hb0. simpl in Hb0.
  case_decide; [done|]. intros Hnz. repeat split; [lia | lia].
Qed.

(** After the process at [k] has run, [rr_next] finds the next process
    with a positive burst after [k], and none before: the table is then
    the one of [fcfs_run] at that index. *)
Lemma rr_next_fcfs_table bursts (k fuel : nat) :
  valid_bursts bursts → (k < length bursts)%nat → (length bursts ≤ fuel)%nat →
  ∃ r,
    rr_next fuel (Z.of_nat k) (fcfs_table bursts (S k)) (Z.of_nat (length bursts))
    = Ok r ∧
    ((r = -1 ∧ fcfs_table bursts (S k) = fcfs_table bursts (length bursts) ∧
      sumZ (take (S k) bursts) = sumZ bursts) ∨
     (∃ c b, r = Z.of_nat c ∧ (k < c)%nat ∧ bursts !! c = Some b ∧ 0 < b ∧
             fcfs_table bursts (S k) = fcfs_table bursts c ∧
             sumZ (take (S k) bursts) = sumZ (take c bursts))).
Proof.
  intros [Hb Hlen] Hk Hfuel. set (n := length bursts) in *.
  assert (Forall (λ b, 0 ≤ b) bursts) as Hnn
    by (eapply Forall_impl; [|exact Hb]; simpl; lia).
  assert (length (fcfs_table bursts (S k)) = n) as Hl by apply fcfs_table_length.
  destruct (rr_next_scan (fcfs_table bursts (S k)) k fuel) as (r & Hr & Hscan);
    [by rewrite Hl..|].
  rewrite Hl in Hr, Hscan. exists r. split; [done|].
  assert ((k + 1) `mod` n < n)%nat as Hs by (apply Nat.mod_upper_bound; lia).
  destruct (decide (r = -1)) as [->|Hr1].
  - left. split; [done|].
    pose proof (scan_result_none _ _ ltac:(by rewrite Hl) Hscan) as Hzero.
    destruct (fcfs_table_skip bursts (S k) (n - S k)) as [H1 H2].
    { intros i Hi. destruct (lookup_lt_is_Some_2 bursts i) as [b Hbi]; [lia|].
      specialize (Hzero i (fcfs_at bursts (S k) i b)).
      rewrite fcfs_table_lookup, Hbi in Hzero. specialize (Hzero eq_refl).
      simpl in Hzero. case_decide; [lia|]. by subst b. }
    replace (S k + (n - S k))%nat with n in H1, H2 by lia.
    split; [done|]. rewrite <- H2. unfold n. by rewrite firstn_all.
  - right.
    destruct (scan_result_some _ _ _ Hr1 Hscan) as (j & p & Hj & -> & Hp & Hnz & Hz).
    rewrite Hl in Hj, Hp, Hz |- *.
    rewrite Nat.Div0.add_mod_idemp_l in Hp |- *.
    destruct (fcfs_table_live _ _ _ _ Hnn Hp Hnz) as (Hge & Hbc & Hpos).
    assert ((k + 1 + j) `mod` n < n)%nat as Hcn by (apply Nat.mod_upper_bound; lia).
    assert ((k + 1 + j) `mod` n = k + 1 + j)%nat as Hc.
    { destruct (decide (k + 1 + j < n)%nat); [by apply Nat.mod_small|].
      rewrite mod_once in Hge by lia. lia. }
    rewrite Hc in *.
    destruct (fcfs_table_skip bursts (S k) j) as [H1 H2].
    { intros i Hi. destruct (lookup_lt_is_Some_2 bursts i) as [b Hbi]; [lia|].
      specialize (Hz (i - S k)%nat (fcfs_at bursts (S k) i b) ltac:(lia)).
      rewrite Nat.Div0.add_mod_idemp_l in Hz.
      replace (k + 1 + (i - S k))%nat with i in Hz by lia.
      rewrite Nat.mod_small in Hz by lia.
      rewrite fcfs_table_lookup, Hbi in Hz. specialize (Hz eq_refl).
      simpl in Hz. case_decide; [lia|]. by subst b. }
    replace (S k + j)%nat with (k + 1 + j)%nat in H1, H2 by lia.
    exists (k + 1 + j)%nat, (burst_left p).
    repeat split; try done; lia.
Qed.

Lemma rr_loop_big_quantum bursts (fuel : nat) quantum :
  valid_bursts bursts → Forall (λ b, b ≤ quantum) bursts →
  (length bursts ≤ fuel)%nat →
  ∀ d c b m,
    (length bursts - c ≤ d)%nat → (d ≤ m)%nat →
    bursts !! c = Some b → 0 < b →
    rr_loop fuel m (Z.of_nat (length bursts)) quantum
      (fcfs_table bursts c) (Z.of_nat c) (CInt.wrap (sumZ (take c bursts)))
    = Ok (fcfs_table bursts (length bursts), CInt.wrap (sumZ bursts)).
Proof.
  intros Hv Hq Hfuel. induction d as [|d IH]; intros c b m Hd Hm Hc Hb.
  { apply lookup_lt_Some in Hc. lia. }
  destruct m as [|m]; [lia|].
  pose proof (lookup_lt_Some _ _ _ Hc) as Hcn.
  destruct (rr_next_fcfs_table bursts c fuel Hv Hcn Hfuel) as (r & Hr & Hcases).
  assert (fcfs_table bursts c !! c = Some (fcfs_at bursts c c b)) as Hp
    by (by rewrite fcfs_table_lookup, Hc).
  assert (burst_left (fcfs_at bursts c c b) = b) as Hbl
    by (simpl; case_decide; [lia | done]).
  assert (slice quantum b = b) as Hslice.
  { pose proof (Forall_lookup_1 _ _ _ _ Hq Hc) as Hbq. simpl in Hbq.
    unfold slice. destruct (Z.ltb_spec b quantum); lia. }
  pose proof (rr_body_live_eq fuel quantum (fcfs_table bursts c) c
                (CInt.wrap (sumZ (take c bursts))) _ r Hp) as Hbody.
  rewrite Hbl, Hslice, (advance_fcfs_table _ _ _ Hc), fcfs_table_length in Hbody.
  specialize (Hbody Hb Hr).
  cbn [rr_loop]. rewrite Hbody. cbn [bind].
  assert (CInt.add (CInt.wrap (sumZ (take c bursts))) b =
          CInt.wrap (sumZ (take (S c) bursts))) as ->.
  { unfold CInt.add. by rewrite wrap_add_l, (sumZ_take_S _ _ _ Hc). }
  destruct Hcases as [(-> & Htab & Hsum)|(c' & b' & -> & Hlt & Hc' & Hb' & Htab & Hsum)].
  - simpl. by rewrite Htab, Hsum.
  - destruct (Z.eqb_spec (Z.of_nat c') (-1)); [lia|].
    rewrite Htab, Hsum. apply (IH c' b' m); [lia | lia | done | done].
Qed.

(** C10.  For every non-empty table of non-negative bursts and every
    quantum that is at least the largest burst, [rr_run] returns the same
    elapsed time as [fcfs_run] on the same initial table, and leaves the
    same table: the same [burst_left] and [wait] for every process. *)
Theorem rr_big_quantum_is_fcfs bursts procs quantum :
  bursts ≠ [] → valid_bursts bursts → Forall (λ b, b ≤ quantum) bursts →
  init_procs true bursts (Z.of_nat (length bursts)) = Ok (Some procs) →
  ∃ final t,
    fcfs_run procs (Z.of_nat (length bursts)) = Ok (final, t) ∧
    ∀ fuel : nat, (length bursts ≤ fuel)%nat →
      rr_run fuel procs (Z.of_nat (length bursts)) quantum = Ok (final, t).
Proof.
  intros Hne Hv Hq Hinit. apply init_procs_inv in Hinit. subst procs.
  eexists _, _. split; [apply fcfs_run_closed|].
  intros fuel Hfuel. unfold rr_run. rewrite <- fcfs_table_0.
  destruct bursts as [|b0 bursts']; [done|].
  set (bursts := b0 :: bursts') in *.
  assert (bursts !! 0%nat = Some b0) as H0 by done.
  assert (0 ≤ b0) as Hb0.
  { destruct Hv as [Hb _]. pose proof (Forall_lookup_1 _ _ _ _ Hb H0) as H.
    simpl in H. lia. }
  destruct (decide (0 < b0)) as [Hlive|Hdead].
  - apply (rr_loop_big_quantum bursts fuel quantum Hv Hq Hfuel
             (length bursts) 0%nat b0 fuel); [lia | lia | done | done].
  - assert (b0 = 0) as Hz by lia. rewrite Hz in H0.
    destruct (fcfs_table_skip1 bursts 0 H0) as [Htab Hsum].
    destruct fuel as [|m]; [simpl in Hfuel; lia|].
    destruct (rr_next_fcfs_table bursts 0 (S m) Hv) as (r & Hr & Hcases);
      [simpl; lia | done |].
    rewrite Htab in Hr.
    assert (fcfs_table bursts 0 !! 0%nat = Some (fcfs_at bursts 0 0 0)) as Hp
      by (by rewrite fcfs_table_lookup, H0).
    pose proof (rr_body_dead_eq (S m) quantum (fcfs_table bursts 0) 0 0 _ r Hp)
      as Hbody.
    rewrite fcfs_table_length in Hbody.
    specialize (Hbody ltac:(simpl; lia) Hr).
    change (Z.of_nat 0) with 0 in Hbody.
    cbn [rr_loop]. rewrite Hbody. cbn [bind].
    assert (0 = CInt.wrap (sumZ (take 1 bursts))) as Ht
      by (by rewrite Hsum).
    destruct Hcases as [(-> & Htab' & Hsum')|(c' & b' & -> & Hlt & Hc' & Hb' & Htab' & Hsum')].
    + rewrite Z.eqb_refl, <- Htab, Htab'. rewrite <- Hsum', Hsum. done.
    + destruct (Z.eqb_spec (Z.of_nat c') (-1)); [lia|].
      rewrite <- Htab, Htab'. rewrite Ht, Hsum'.
      apply (rr_loop_big_quantum bursts (S m) quantum Hv Hq Hfuel
               (length bursts - 1) c' b' m); [lia | lia | done | done].
Qed.

Lemma rr_big_quantum_is_fcfs_witness :
  ∃ final t,
    fcfs_run (table_of [5; 0; 8]) 3 = Ok (final, t) ∧
    ∀ fuel : nat, (3 ≤ fuel)%nat →
      rr_run fuel (table_of [5; 0; 8]) 3 8 = Ok (final, t).
Proof.
  apply (rr_big_quantum_is_fcfs [5; 0; 8] (table_of [5; 0; 8]) 8).
  - done.
  - split; [int_list | int_lia].
  - repeat constructor; lia.
  - reflexivity.
Defined.

(** ** Complete processes *)

Lemma advance_complete current amount i p :
  burst_left p = 0 → (i = current → amount = 0) →
  advance current amount i p = p.
Proof.
  intros Hp Ha. unfold advance. case_decide as Hi.
  - rewrite Hp, (Ha Hi). destruct p as [pid0 b w]. simpl in Hp. by subst b.
  - by rewrite Hp.
Qed.

Lemma run_proc_complete procs target amount procs' i p :
  run_proc procs (Z.of_nat (length procs)) target amount = Ok procs' →
  procs !! i = Some p → burst_left p = 0 →
  (Z.of_nat i = target → amount = 0) →
  procs' !! i = Some p ∧ length procs' = length procs.
Proof.
  intros Hrun Hp Hp0 Ha.
  assert (0 ≤ target < Z.of_nat (length procs)) as Ht.
  { unfold run_proc in Hrun. apply bind_Ok in Hrun as (pt & Hpt & _).
    apply arr_get_Ok in Hpt as [? Hpt]. apply lookup_lt_Some in Hpt. lia. }
  rewrite run_proc_Z in Hrun by done. injection Hrun as <-.
  split; [|apply length_imap].
  rewrite list_lookup_imap, Hp. simpl. f_equal.
  apply advance_complete; [done|]. intros ->. apply Ha. lia.
Qed.

Lemma fcfs_iter_complete i p :
  burst_left p = 0 →
  ∀ n k procs t procs' t',
    procs !! i = Some p →
    for_iter n k (fcfs_body (Z.of_nat (length procs))) (procs, t) = Ok (procs', t') →
    procs' !! i = Some p.
Proof.
  intros Hp0. induction n as [|n IH]; intros k procs t procs' t' Hp Hrun;
    simpl in Hrun.
  - by injection Hrun as <- <-.
  - apply bind_Ok in Hrun as ([procs1 t1] & Hbody & Hrest).
    unfold fcfs_body in Hbody.
    apply bind_Ok in Hbody as (pk & Hpk & Hbody).
    apply bind_Ok in Hbody as (procs1' & Hproc & [= <- <-]).
    apply arr_get_Ok in Hpk as [Hk Hpk].
    destruct (run_proc_complete _ _ _ _ i p Hproc Hp Hp0) as [Hp1 Hl1].
    { intros <-. rewrite Nat2Z.id in Hpk. congruence. }
    rewrite <- Hl1 in Hrest. by apply (IH _ _ _ _ _ Hp1 Hrest).
Qed.

Lemma rr_body_complete i p fuel quantum procs current time procs1 time1 next :
  burst_left p = 0 → procs !! i = Some p →
  rr_body fuel (Z.of_nat (length procs)) quantum procs current time
  = Ok (procs1, time1, next) →
  procs1 !! i = Some p ∧ length procs1 = length procs ∧
  (current = Z.of_nat i → procs1 = procs ∧ time1 = time).
Proof.
  intros Hp0 Hp Hbody. unfold rr_body in Hbody.
  apply bind_Ok in Hbody as (pc & Hpc & Hbody).
  apply bind_Ok in Hbody as ([procs1' time1'] & Hrun & Hbody).
  apply bind_Ok in Hbody as (r & _ & [= <- <- <-]).
  apply arr_get_Ok in Hpc as [Hc Hpc].
  destruct (Z.ltb_spec 0 (burst_left pc)) as [Hlive|Hdead].
  - apply bind_Ok in Hrun as (procs' & Hproc & [= <- <-]).
    assert (Z.of_nat i ≠ current) as Hne.
    { intros <-. rewrite Nat2Z.id in Hpc. assert (pc = p) by congruence.
      subst pc. lia. }
    destruct (run_proc_complete _ _ _ _ i p Hproc Hp Hp0) as [Hp1 Hl1]; [done|].
    repeat split; try done; intros ->; done.
  - injection Hrun as <- <-. done.
Qed.

Lemma rr_loop_complete i p fuel quantum :
  burst_left p = 0 →
  ∀ n procs current time procs' t',
    procs !! i = Some p →
    rr_loop fuel n (Z.of_nat (length procs)) quantum procs current time
    = Ok (procs', t') →
    procs' !! i = Some p.
Proof.
  intros Hp0. induction n as [|n IH]; intros procs current time procs' t' Hp Hrun;
    simpl in Hrun; [done|].
  apply bind_Ok in Hrun as ([[procs1 time1] next] & Hbody & Hrest).
  destruct (rr_body_complete i p _ _ _ _ _ _ _ _ Hp0 Hp Hbody) as (Hp1 & Hl1 & _).
  destruct (next =? -1).
  - by injection Hrest as <- <-.
  - rewrite <- Hl1 in Hrest. by apply (IH _ _ _ _ _ Hp1 Hrest).
Qed.

Lemma rr_next_loop_selects fuel procs plen start next r :
  rr_next_loop fuel procs plen start next = Ok r → r ≠ -1 →
  ∃ p, arr_get procs r = Ok p ∧ burst_left p ≠ 0.
Proof.
  revert next. induction fuel as [|fuel IH]; intros next Hrun Hr;
    simpl in Hrun; [done|].
  apply bind_Ok in Hrun as (p & Hp & Hrun).
  destruct (Z.eqb_spec (burst_left p) 0) as [Hz|Hnz].
  - apply bind_Ok in Hrun as (next' & _ & Hrun).
    destruct (next' =? start); [by injection Hrun as <- | by apply (IH next')].
  - injection Hrun as <-. eauto.
Qed.

(** C7.  Let a process be complete ([burst_left = 0]) in any table.  A
    call of [run_proc] that runs another process, or this one for the
    amount 0, leaves it as it is, and so do the rest of the loop of
    [fcfs_run] from any position and the rest of the loop of [rr_run] from
    any state: its [wait] never increases.  It is never run again:
    [rr_next] never selects it, a pass of [rr_run] that starts on it calls
    no [run_proc] and leaves table and clock unchanged, and its turn in
    [fcfs_run] runs it for the amount 0. *)
Theorem complete_never_waits procs (i : nat) p :
  procs !! i = Some p → burst_left p = 0 →
  let len := Z.of_nat (length procs) in
  (∀ target amount procs',
     (Z.of_nat i = target → amount = 0) →
     run_proc procs len target amount = Ok procs' → procs' !! i = Some p) ∧
  (∀ n k t procs' t',
     for_iter n k (fcfs_body len) (procs, t) = Ok (procs', t') →
     procs' !! i = Some p) ∧
  (∀ fuel n quantum current time procs' t',
     rr_loop fuel n len quantum procs current time = Ok (procs', t') →
     procs' !! i = Some p) ∧
  (∀ fuel current r, rr_next fuel current procs len = Ok r → r ≠ Z.of_nat i) ∧
  (∀ fuel quantum time procs1 time1 next,
     rr_body fuel len quantum procs (Z.of_nat i) time = Ok (procs1, time1, next) →
     procs1 = procs ∧ time1 = time) ∧
  (∀ t, fcfs_body len (Z.of_nat i) (procs, t) =
        let* procs1 := run_proc procs len (Z.of_nat i) 0 in
        Ok (procs1, CInt.add t 0)).
Proof.
  intros Hp Hp0 len. repeat split.
  - intros target amount procs' Ha Hrun.
    by destruct (run_proc_complete _ _ _ _ i p Hrun Hp Hp0 Ha).
  - intros n k t procs' t'. by apply fcfs_iter_complete.
  - intros fuel n quantum current time procs' t'. by apply rr_loop_complete.
  - intros fuel current r Hr ->. unfold rr_next in Hr.
    apply bind_Ok in Hr as (start & _ & Hr).
    destruct (rr_next_loop_selects _ _ _ _ _ _ Hr) as (q & Hq & Hnz); [lia|].
    rewrite (arr_get_nat _ _ _ Hp) in Hq. congruence.
  - by destruct (rr_body_complete i p _ _ _ _ _ _ _ _ Hp0 Hp H) as (_ & _ & []).
  - by destruct (rr_body_complete i p _ _ _ _ _ _ _ _ Hp0 Hp H) as (_ & _ & []).
  - intros t. unfold fcfs_body. rewrite (arr_get_nat _ _ _ Hp). simpl.
    by rewrite Hp0.
Qed.

Lemma complete_never_waits_witness :
  ∃ procs' t',
    rr_loop 2 2 2 2
      [ {| pid := 0; burst_left := 0; wait := 4 |};
        {| pid := 1; burst_left := 3; wait := 0 |} ] 1 0 = Ok (procs', t') ∧
    procs' !! 0%nat = Some {| pid := 0; burst_left := 0; wait := 4 |}.
Proof.
  eexists _, _. split; [reflexivity|].
  apply (proj1 (proj2 (proj2
    (complete_never_waits
       [ {| pid := 0; burst_left := 0; wait := 4 |};
         {| pid := 1; burst_left := 3; wait := 0 |} ]
       0 {| pid := 0; burst_left := 0; wait := 4 |} eq_refl eq_refl)))
    2%nat 2%nat 2 1 0 _ 3).
  reflexivity.
Defined.

(** * Further properties of the code *)

(** ** Loops that fault *)

Lemma for_iter_app {St} (body : Z → St → result St) n1 n2 i s :
  for_iter (n1 + n2) i body s =
  let* s' := for_iter n1 i body s in for_iter n2 (i + Z.of_nat n1) body s'.
Proof.
  revert i s. induction n1 as [|n1 IH]; intros i s.
  - simpl. by rewrite Z.add_0_r.
  - cbn [Nat.add for_iter]. destruct (body i s) as [s1|e]; simpl; [|done].
    rewrite IH. do 2 f_equal. lia.
Qed.

(** A loop over more indices than [n] faults when the pass at index [n]
    does, the passes before it being the chain [f 0], ..., [f n]. *)
Lemma for_range_fault {St} (f : nat → St) (body : Z → St → result St)
    (n : nat) hi e :
  (∀ j, (j < n)%nat → body (Z.of_nat j) (f j) = Ok (f (S j))) →
  body (Z.of_nat n) (f n) = Err e → Z.of_nat n < hi →
  for_range 0 hi body (f O) = Err e.
Proof.
  intros Hstep Hfault Hhi. unfold for_range.
  replace (Z.to_nat (hi - 0)) with (n + S (Z.to_nat hi - S n))%nat by lia.
  rewrite for_iter_app. change 0 with (Z.of_nat 0) at 1.
  rewrite for_iter_chain by (intros j Hj; apply Hstep; lia).
  cbn [bind for_iter Nat.add]. rewrite Z.add_0_l. by rewrite Hfault.
Qed.

(** ** init_procs on any [blen] *)

Lemma init_body_step bursts j :
  (j < length bursts)%nat →
  init_body bursts (Z.of_nat j) (table_of (take j bursts)) =
  Ok (table_of (take (S j) bursts)).
Proof.
  intros Hj. unfold init_body.
  destruct (lookup_lt_is_Some_2 bursts j Hj) as [b Hb].
  rewrite (arr_get_nat _ _ _ Hb). simpl.
  rewrite (take_S_r _ _ _ Hb), table_of_snoc.
  rewrite length_take, Nat.min_l by lia. done.
Qed.




(** X2.  When [blen] exceeds the number of bursts, [init_procs] reads
    [bursts] past its end; and when [malloc] fails it returns [NULL]
    before any read, whatever [blen] is. *)
Theorem init_procs_out_of_bounds bursts blen :
  Z.of_nat (length bursts) < blen →
  init_procs true bursts blen = Err OutOfBounds ∧
  init_procs false bursts blen = Ok None.
Proof.
  intros Hblen. split; [|done]. unfold init_procs.
  rewrite (for_range_fault (λ k, table_of (take k bursts)) _
             (length bursts) blen OutOfBounds); [done | | | done].
  - intros j Hj. by apply init_body_step.
  - unfold init_body, arr_get.
    destruct (Z.ltb_spec (Z.of_nat (length bursts)) 0); [done|].
    rewrite Nat2Z.id, lookup_ge_None_2; done.
Qed.

Lemma init_procs_out_of_bounds_witness :
  init_procs true [5; 3; 8] 4 = Err OutOfBounds ∧
  init_procs false [5; 3; 8] 4 = Ok None.
Proof. apply (init_procs_out_of_bounds [5; 3; 8] 4). simpl. lia. Defined.

(** ** run_proc on any [plen], [current] and [amount] *)

Lemma arr_get_outside {A} (a : list A) (i : Z) :
  i < 0 ∨ Z.of_nat (length a) ≤ i → arr_get a i = Err OutOfBounds.
Proof.
  intros Hi. unfold arr_get. destruct (Z.ltb_spec i 0); [done|].
  rewrite lookup_ge_None_2; [done | lia].
Qed.

Lemma run_proc_upto procs (current n : nat) amount :
  (current < length procs)%nat → (n ≤ length procs)%nat →
  run_proc procs (Z.of_nat n) (Z.of_nat current) amount =
  Ok (imap (advance_upto current amount n) procs).
Proof.
  intros Hc Hn. unfold run_proc.
  destruct (lookup_lt_is_Some_2 procs current Hc) as [p Hp].
  rewrite (arr_get_nat _ _ _ Hp). simpl.
  rewrite arr_set_nat by done. simpl.
  rewrite <- (advance_upto_0 current amount procs p Hp).
  rewrite (for_range_chain (λ k, imap (advance_upto current amount k) procs));
    [done|].
  intros j Hj. apply run_proc_body_step. lia.
Qed.

Lemma run_proc_past_block procs (current : nat) plen amount :
  (current < length procs)%nat → Z.of_nat (length procs) < plen →
  run_proc procs plen (Z.of_nat current) amount = Err OutOfBounds.
Proof.
  intros Hc Hplen. unfold run_proc.
  destruct (lookup_lt_is_Some_2 procs current Hc) as [p Hp].
  rewrite (arr_get_nat _ _ _ Hp). simpl.
  rewrite arr_set_nat by done. simpl.
  rewrite <- (advance_upto_0 current amount procs p Hp).
  apply (for_range_fault (λ k, imap (advance_upto current amount k) procs) _
           (length procs)); [| |done].
  - intros j Hj. by apply run_proc_body_step.
  - unfold run_proc_body.
    destruct (Z.eqb_spec (Z.of_nat (length procs)) (Z.of_nat current)); [lia|].
    rewrite arr_get_outside; [done|]. rewrite length_imap. lia.
Qed.

(** X3.  [run_proc] accesses an element outside of the block when
    [current] is not an index of the block, and also when [plen] exceeds
    the number of elements of the block. *)
Theorem run_proc_out_of_bounds procs plen current amount :
  current < 0 ∨ Z.of_nat (length procs) ≤ current ∨
  Z.of_nat (length procs) < plen →
  run_proc procs plen current amount = Err OutOfBounds.
Proof.
  intros Hout.
  destruct (decide (0 ≤ current < Z.of_nat (length procs))) as [Hin|Hnot].
  - destruct Hout as [?|[?|Hplen]]; [lia | lia |].
    rewrite <- (Z2Nat.id current) by lia.
    apply run_proc_past_block; [lia | done].
  - unfold run_proc. rewrite arr_get_outside; [done | lia].
Qed.

Lemma run_proc_out_of_bounds_witness :
  run_proc (table_of [5; 3; 8]) 4 1 2 = Err OutOfBounds.
Proof. apply run_proc_out_of_bounds. simpl. lia. Defined.

(** X4.  For every [current] in the block, every [plen] from 0 to the size
    of the block and every [amount] (no precondition on it), [run_proc]
    returns, keeps every [pid] and the size of the block, subtracts
    [amount] from the [burst_left] of [current] only, and adds [amount] to
    the [wait] of exactly the elements below [plen], other than [current],
    whose [burst_left] is positive; the arithmetic is that of [int]. *)
Theorem run_proc_exact procs plen current amount :
  0 ≤ current < Z.of_nat (length procs) →
  0 ≤ plen ≤ Z.of_nat (length procs) →
  ∃ procs',
    run_proc procs plen current amount = Ok procs' ∧
    length procs' = length procs ∧
    ∀ (i : nat) p, procs !! i = Some p →
      ∃ p', procs' !! i = Some p' ∧ pid p' = pid p ∧
        burst_left p' =
          (if decide (Z.of_nat i = current)
           then CInt.sub (burst_left p) amount else burst_left p) ∧
        wait p' =
          (if decide (Z.of_nat i ≠ current ∧ Z.of_nat i < plen ∧ 0 < burst_left p)
           then CInt.add (wait p) amount else wait p).
Proof.
  intros Hc Hplen.
  exists (imap (advance_upto (Z.to_nat current) amount (Z.to_nat plen)) procs).
  split; [|split].
  - rewrite <- (Z2Nat.id current) at 1 by lia.
    rewrite <- (Z2Nat.id plen) at 1 by lia.
    apply run_proc_upto; lia.
  - apply length_imap.
  - intros i p Hp. rewrite list_lookup_imap, Hp. simpl. eexists. split; [done|].
    unfold advance_upto, advance.
    destruct (Z.ltb_spec 0 (burst_left p));
      repeat case_decide; simpl; repeat split; try done; lia.
Qed.

Lemma run_proc_exact_witness :
  ∃ procs',
    run_proc (table_of [5; 3; 8]) 2 1 7 = Ok procs' ∧
    length procs' = 3%nat ∧
    ∀ (i : nat) p, table_of [5; 3; 8] !! i = Some p →
      ∃ p', procs' !! i = Some p' ∧ pid p' = pid p ∧
        burst_left p' =
          (if decide (Z.of_nat i = 1)
           then CInt.sub (burst_left p) 7 else burst_left p) ∧
        wait p' =
          (if decide (Z.of_nat i ≠ 1 ∧ Z.of_nat i < 2 ∧ 0 < burst_left p)
           then CInt.add (wait p) 7 else wait p).
Proof. apply (run_proc_exact (table_of [5; 3; 8]) 2 1 7); simpl; lia. Defined.

Lemma wrap_add_r a b : CInt.wrap (a + CInt.wrap b) = CInt.wrap (a + b).
Proof. by rewrite Z.add_comm, wrap_add_l, Z.add_comm. Qed.

Lemma advance_advance current a b i p :
  advance current b i (advance current a i p) =
  advance current (CInt.add a b) i p.
Proof.
  unfold advance. case_decide.
  - unfold set_burst_left. simpl. f_equal. unfold CInt.sub, CInt.add.
    replace (burst_left p - CInt.wrap (a + b))
      with (burst_left p + - CInt.wrap (a + b)) by lia.
    replace (CInt.wrap (burst_left p - a) - b)
      with (CInt.wrap (burst_left p - a) + - b) by lia.
    rewrite wrap_add_l.
    unfold CInt.wrap at 2.
    unfold CInt.wrap.
    replace (burst_left p +
             - ((a + b + 2147483648) `mod` 4294967296 - 2147483648) +
             2147483648)
      with ((burst_left p + 4294967296) -
            (a + b + 2147483648) `mod` 4294967296) by lia.
    rewrite Zminus_mod_idemp_r. f_equal. 
    replace (burst_left p + 4294967296 - (a + b + 2147483648))
      with (burst_left p - a + - b + 2147483648 + 0 * 4294967296) by lia.
    by rewrite Z.mod_add.
  - destruct (0 <? burst_left p) eqn:Hlive; simpl; rewrite Hlive; [|done].
    unfold set_wait. simpl. f_equal. unfold CInt.add.
    by rewrite wrap_add_l, wrap_add_r, Z.add_assoc.
Qed.

(** X5.  Running a process for [a] and then for [b] leaves the same table
    as running it once for the [int] sum of [a] and [b]. *)
Theorem run_proc_twice procs current a b :
  0 ≤ current < Z.of_nat (length procs) →
  (let* procs1 := run_proc procs (Z.of_nat (length procs)) current a in
   run_proc procs1 (Z.of_nat (length procs)) current b) =
  run_proc procs (Z.of_nat (length procs)) current (CInt.add a b).
Proof.
  intros Hc. rewrite !run_proc_Z by done. simpl.
  rewrite <- (length_imap (advance (Z.to_nat current) a) procs) at 1.
  rewrite run_proc_Z by (by rewrite length_imap). f_equal.
  apply list_eq. intros i. rewrite !list_lookup_imap.
  destruct (procs !! i); simpl; [|done]. by rewrite advance_advance.
Qed.

Lemma run_proc_twice_witness :
  (let* procs1 := run_proc (table_of [5; 3; 8]) 3 2 3 in
   run_proc procs1 3 2 4) =
  run_proc (table_of [5; 3; 8]) 3 2 (CInt.add 3 4).
Proof. apply (run_proc_twice (table_of [5; 3; 8]) 2 3 4). simpl. lia. Defined.

(** X6.  When every remaining burst is a non-negative [int] and [amount]
    is between 0 and the [burst_left] of [current], [run_proc] keeps every
    remaining burst a non-negative [int] and takes exactly [amount] off
    the work left in the table. *)
Theorem run_proc_work_left procs current amount pc :
  bursts_ok procs → 0 ≤ current →
  procs !! Z.to_nat current = Some pc → 0 ≤ amount ≤ burst_left pc →
  ∃ procs',
    run_proc procs (Z.of_nat (length procs)) current amount = Ok procs' ∧
    bursts_ok procs' ∧ total procs' = total procs - amount.
Proof.
  intros Hok Hc Hpc Ha. pose proof (lookup_lt_Some _ _ _ Hpc) as Hlt.
  eexists. split; [apply run_proc_Z; lia|]. split.
  - by apply (bursts_ok_advance _ _ _ pc).
  - by apply (total_advance _ _ _ pc).
Qed.

Lemma run_proc_work_left_witness :
  ∃ procs',
    run_proc (table_of [5; 3; 8]) 3 1 2 = Ok procs' ∧
    bursts_ok procs' ∧ total procs' = total (table_of [5; 3; 8]) - 2.
Proof.
  apply (run_proc_work_left (table_of [5; 3; 8]) 1 2
           {| pid := 1; burst_left := 3; wait := 0 |}).
  - int_list.
  - lia.
  - reflexivity.
  - simpl. lia.
Defined.

(** ** fcfs_run beyond the claims *)

(** X7.  On the table built from any bursts, [fcfs_run] returns without a
    fault; the value is the sum of the bursts reduced to an [int], and in
    the table it leaves every [burst_left] is 0 and every [pid] is the
    index. *)
Theorem fcfs_run_total bursts procs :
  init_procs true bursts (Z.of_nat (length bursts)) = Ok (Some procs) →
  ∃ final,
    fcfs_run procs (Z.of_nat (length bursts))
    = Ok (final, CInt.wrap (sumZ bursts)) ∧
    length final = length bursts ∧
    ∀ (i : nat) p, final !! i = Some p →
      pid p = Z.of_nat i ∧ burst_left p = 0.
Proof.
  intros Hinit. apply init_procs_inv in Hinit. subst procs.
  eexists. split; [apply fcfs_run_closed|].
  split; [apply fcfs_table_length|].
  intros i p. rewrite fcfs_table_lookup.
  destruct (bursts !! i) as [b|] eqn:Hb; [|done]. intros [= <-]. simpl.
  apply lookup_lt_Some in Hb. split; [done|]. case_decide; [done | lia].
Qed.

Lemma fcfs_run_total_witness :
  ∃ final,
    fcfs_run (table_of [2147483647; 1]) 2
    = Ok (final, CInt.wrap (sumZ [2147483647; 1])) ∧
    length final = 2%nat ∧
    ∀ (i : nat) p, final !! i = Some p →
      pid p = Z.of_nat i ∧ burst_left p = 0.
Proof.
  apply (fcfs_run_total [2147483647; 1] (table_of [2147483647; 1])).
  reflexivity.
Defined.

Lemma sumZ_take_le bursts i j :
  Forall (λ b, 0 ≤ b) bursts → (i ≤ j)%nat →
  sumZ (take i bursts) ≤ sumZ (take j bursts).
Proof.
  intros Hb Hij. replace j with (i + (j - i))%nat by lia.
  rewrite <- take_take_drop, sumZ_app.
  assert (0 ≤ sumZ (take (j - i) (drop i bursts))); [|lia].
  apply sumZ_nonneg. by apply Forall_take, Forall_drop.
Qed.

(** X8.  First come, first served: in the table that [fcfs_run] leaves, a
    process with a positive burst has waited at least as long as any
    earlier process with a positive burst has waited and run, when the
    bursts before it sum to at most [INT_MAX]. *)
Theorem fcfs_run_order bursts procs (i j : nat) bi bj :
  valid_bursts bursts →
  init_procs true bursts (Z.of_nat (length bursts)) = Ok (Some procs) →
  (i < j)%nat → bursts !! i = Some bi → bursts !! j = Some bj →
  0 < bi → 0 < bj → sumZ (take j bursts) ≤ CInt.INT_MAX →
  ∃ final t pi pj,
    fcfs_run procs (Z.of_nat (length bursts)) = Ok (final, t) ∧
    final !! i = Some pi ∧ final !! j = Some pj ∧
    wait pi + bi ≤ wait pj.
Proof.
  intros [Hb _] Hinit Hij Hi Hj Hbi Hbj Hfit.
  apply init_procs_inv in Hinit. subst procs.
  eexists _, _, _, _. split; [apply fcfs_run_closed|].
  rewrite !fcfs_table_lookup, Hi, Hj. simpl. split; [done|]. split; [done|].
  simpl. destruct (Z.ltb_spec 0 bi); [|lia]. destruct (Z.ltb_spec 0 bj); [|lia].
  pose proof (lookup_lt_Some _ _ _ Hi). pose proof (lookup_lt_Some _ _ _ Hj).
  rewrite !Nat.min_l by lia.
  assert (Forall (λ b, 0 ≤ b) bursts) as Hnn
    by (eapply Forall_impl; [|exact Hb]; simpl; lia).
  pose proof (sumZ_nonneg (take i bursts) ltac:(by apply Forall_take)).
  pose proof (sumZ_take_le bursts (S i) j Hnn ltac:(lia)) as Hle.
  rewrite (sumZ_take_S _ _ _ Hi) in Hle.
  rewrite !wrap_id by int_lia. lia.
Qed.

Lemma fcfs_run_order_witness :
  ∃ final t pi pj,
    fcfs_run (table_of [5; 0; 8]) 3 = Ok (final, t) ∧
    final !! 0%nat = Some pi ∧ final !! 2%nat = Some pj ∧
    wait pi + 5 ≤ wait pj.
Proof.
  apply (fcfs_run_order [5; 0; 8] (table_of [5; 0; 8]) 0 2 5 8);
    try reflexivity; try lia.
  - split; [int_list | int_lia].
  - int_lia.
Defined.

(** X9.  [fcfs_run] accesses an element outside of the block when [plen]
    exceeds the number of elements of the block. *)
Theorem fcfs_run_out_of_bounds procs plen :
  Z.of_nat (length procs) < plen → fcfs_run procs plen = Err OutOfBounds.
Proof.
  intros Hplen. unfold fcfs_run, for_range.
  replace (Z.to_nat (plen - 0)) with (S (Z.to_nat plen - 1)) by lia.
  cbn [for_iter fcfs_body].
  destruct procs as [|p procs]; [done|].
  change (arr_get (p :: procs) 0) with (Ok p). cbn [bind].
  change 0 with (Z.of_nat 0) at 1.
  rewrite run_proc_past_block; [done | simpl; lia | done].
Qed.

Lemma fcfs_run_out_of_bounds_witness :
  fcfs_run (table_of [5; 3; 8]) 4 = Err OutOfBounds.
Proof. apply fcfs_run_out_of_bounds. simpl. lia. Defined.

(** ** Tables on which every process is complete *)

Lemma advance_all_complete procs current :
  (∀ i p, procs !! i = Some p → burst_left p = 0) →
  imap (advance current 0) procs = procs.
Proof.
  intros Hz. apply list_eq. intros i. rewrite list_lookup_imap.
  destruct (procs !! i) as [p|] eqn:Hp; simpl; [|done]. f_equal.
  apply advance_complete; [by eapply Hz | done].
Qed.

(** X10.  On a table on which every process is complete, both schedulers
    take no time and change nothing: [fcfs_run] returns 0 and the table as
    it is, and so does [rr_run], for every quantum, when the table is not
    empty. *)
Theorem complete_table_runs procs :
  (∀ i p, procs !! i = Some p → burst_left p = 0) →
  fcfs_run procs (Z.of_nat (length procs)) = Ok (procs, 0) ∧
  (procs ≠ [] → Z.of_nat (length procs) ≤ CInt.INT_MAX →
   ∀ (fuel : nat) quantum, (length procs ≤ fuel)%nat →
     rr_run fuel procs (Z.of_nat (length procs)) quantum = Ok (procs, 0)).
Proof.
  intros Hz. split.
  - unfold fcfs_run. apply (for_range_chain (λ _, (procs, 0))).
    intros j Hj. destruct (lookup_lt_is_Some_2 procs j Hj) as [p Hp].
    unfold fcfs_body. rewrite (arr_get_nat _ _ _ Hp). simpl.
    rewrite (Hz _ _ Hp), run_proc_imap by done. simpl.
    by rewrite advance_all_complete.
  - intros Hne Hlen fuel quantum Hfuel.
    destruct procs as [|p0 procs']; [done|]. set (procs := p0 :: procs') in *.
    destruct fuel as [|m]; [simpl in Hfuel; lia|].
    assert (procs !! 0%nat = Some p0) as Hp0 by done.
    destruct (rr_body_dead procs 0 (S m) quantum 0 p0) as (r & Hbody & Hscan);
      [done | done | done | rewrite (Hz _ _ Hp0); lia |].
    unfold rr_run. cbn [rr_loop]. change (Z.of_nat 0) with 0 in Hbody.
    rewrite Hbody. cbn [bind].
    destruct (decide (r = -1)) as [->|Hr]; [done|].
    destruct (scan_result_some _ _ _ Hr Hscan) as (k & p & _ & _ & Hp & Hnz & _).
    by rewrite (Hz _ _ Hp) in Hnz.
Qed.

Lemma complete_table_runs_witness :
  fcfs_run [ {| pid := 0; burst_left := 0; wait := 6 |};
             {| pid := 1; burst_left := 0; wait := 3 |} ] 2
  = Ok ([ {| pid := 0; burst_left := 0; wait := 6 |};
          {| pid := 1; burst_left := 0; wait := 3 |} ], 0) ∧
  rr_run 2 [ {| pid := 0; burst_left := 0; wait := 6 |};
             {| pid := 1; burst_left := 0; wait := 3 |} ] 2 3
  = Ok ([ {| pid := 0; burst_left := 0; wait := 6 |};
          {| pid := 1; burst_left := 0; wait := 3 |} ], 0).
Proof.
  destruct (complete_table_runs
              [ {| pid := 0; burst_left := 0; wait := 6 |};
                {| pid := 1; burst_left := 0; wait := 3 |} ]) as [Hf Hr].
  - intros [|[|i]] p; simpl; intros [= <-]; done.
  - split; [exact Hf|]. apply Hr; [done | int_lia | simpl; lia].
Defined.

(** ** Invariants of the loop of rr_run *)

Lemma rr_body_shape fuel quantum procs current time procs1 time1 next :
  rr_body fuel (Z.of_nat (length procs)) quantum procs current time
  = Ok (procs1, time1, next) →
  length procs1 = length procs ∧
  ∃ (c : nat) p, current = Z.of_nat c ∧ procs !! c = Some p ∧
    rr_next fuel current procs1 (Z.of_nat (length procs)) = Ok next ∧
    ((0 < burst_left p ∧
      procs1 = imap (advance c (slice quantum (burst_left p))) procs ∧
      time1 = CInt.add time (slice quantum (burst_left p))) ∨
     (burst_left p ≤ 0 ∧ procs1 = procs ∧ time1 = time)).
Proof.
  intros Hbody. unfold rr_body in Hbody.
  apply bind_Ok in Hbody as (p & Hp & Hbody).
  apply bind_Ok in Hbody as ([procs1' time1'] & Hrun & Hbody).
  apply bind_Ok in Hbody as (r & Hr & [= <- <- <-]).
  apply arr_get_Ok in Hp as [Hc Hp].
  pose proof (lookup_lt_Some _ _ _ Hp) as Hlt.
  destruct (Z.ltb_spec 0 (burst_left p)) as [Hlive|Hdead].
  - apply bind_Ok in Hrun as (procs' & Hproc & [= <- <-]).
    rewrite run_proc_Z in Hproc by lia. injection Hproc as <-.
    split; [apply length_imap|].
    exists (Z.to_nat current), p. rewrite Z2Nat.id by done.
    repeat split; try done. by left.
  - injection Hrun as <- <-. split; [done|].
    exists (Z.to_nat current), p. rewrite Z2Nat.id by done.
    repeat split; try done. by right.
Qed.

Section LoopInvariant.

Variables (fuel : nat) (quantum : Z) (Inv : list pcb → Z → Prop).

(** [Inv] is kept when a process with work left runs for its slice. *)
Hypothesis Inv_dispatch :
  ∀ procs time (c : nat) p,
    Inv procs time → procs !! c = Some p → 0 < burst_left p →
    Inv (imap (advance c (slice quantum (burst_left p))) procs)
        (CInt.add time (slice quantum (burst_left p))).

Lemma rr_loop_invariant n :
  ∀ procs current time final t,
    Inv procs time →
    rr_loop fuel n (Z.of_nat (length procs)) quantum procs current time
    = Ok (final, t) →
    Inv final t.
Proof.
  induction n as [|n IH]; intros procs current time final t HI Hrun;
    simpl in Hrun; [done|].
  apply bind_Ok in Hrun as ([[procs1 time1] next] & Hbody & Hrest).
  destruct (rr_body_shape _ _ _ _ _ _ _ _ Hbody)
    as (Hl1 & c & p & -> & Hp & _ & Hcase).
  assert (Inv procs1 time1) as HI1.
  { destruct Hcase as [(Hlive & -> & ->)|(_ & -> & ->)]; [|done].
    by apply Inv_dispatch. }
  destruct (next =? -1).
  - by injection Hrest as <- <-.
  - rewrite <- Hl1 in Hrest. by apply (IH _ _ _ _ _ HI1 Hrest).
Qed.

End LoopInvariant.

Lemma advance_pid current amount i p : pid (advance current amount i p) = pid p.
Proof.
  unfold advance. case_decide; [done|]. by destruct (0 <? burst_left p).
Qed.

(** X11.  For every non-empty table of non-negative bursts and every
    positive quantum, [rr_run] leaves a table of the same size in which
    every [burst_left] is 0 and every [pid] is the index, and it returns
    the sum of the bursts reduced to an [int]: the value that [fcfs_run]
    returns on the same table, also when the sum exceeds [INT_MAX]. *)
Theorem rr_run_total bursts procs quantum (fuel : nat) :
  bursts ≠ [] → valid_bursts bursts → 0 < quantum →
  init_procs true bursts (Z.of_nat (length bursts)) = Ok (Some procs) →
  (length bursts ≤ fuel)%nat → (Z.to_nat (sumZ bursts) + 1 ≤ fuel)%nat →
  ∃ final final',
    rr_run fuel procs (Z.of_nat (length bursts)) quantum
    = Ok (final, CInt.wrap (sumZ bursts)) ∧
    fcfs_run procs (Z.of_nat (length bursts))
    = Ok (final', CInt.wrap (sumZ bursts)) ∧
    length final = length bursts ∧
    ∀ (i : nat) p, final !! i = Some p →
      pid p = Z.of_nat i ∧ burst_left p = 0.
Proof.
  intros Hne Hv Hq Hinit Hf1 Hf2. apply init_procs_inv in Hinit. subst procs.
  destruct (rr_run_table_of bursts quantum fuel) as (final & Hrun & Hl & Hz & _);
    try done.
  exists final, (fcfs_table bursts (length bursts)).
  split; [done|]. split; [apply fcfs_run_closed|]. split; [done|].
  intros i p Hp. split; [|by eapply Hz].
  unfold rr_run in Hrun. rewrite <- (table_of_length bursts) in Hrun.
  refine (rr_loop_invariant fuel quantum
            (λ procs _, ∀ (i : nat) p, procs !! i = Some p → pid p = Z.of_nat i)
            _ fuel _ _ _ _ _ _ Hrun i p Hp).
  - intros procs0 time c pc HI _ _ j q. rewrite list_lookup_imap.
    destruct (procs0 !! j) as [q0|] eqn:Hq0; [|done]. intros [= <-].
    rewrite advance_pid. by apply HI.
  - intros j q. rewrite table_of_lookup.
    destruct (bursts !! j); [|done]. by intros [= <-].
Qed.

Lemma rr_run_total_witness :
  ∃ final final',
    rr_run 9 (table_of [5; 3]) 2 2 = Ok (final, CInt.wrap (sumZ [5; 3])) ∧
    fcfs_run (table_of [5; 3]) 2 = Ok (final', CInt.wrap (sumZ [5; 3])) ∧
    length final = 2%nat ∧
    ∀ (i : nat) p, final !! i = Some p →
      pid p = Z.of_nat i ∧ burst_left p = 0.
Proof.
  apply (rr_run_total [5; 3] (table_of [5; 3]) 2 9).
  - done.
  - split; [int_list | int_lia].
  - lia.
  - reflexivity.
  - simpl. lia.
  - simpl. lia.
Defined.

(** ** The waits of rr_run *)

Lemma waits_inv_bursts_ok bursts procs time :
  valid_bursts bursts → waits_inv bursts procs time → bursts_ok procs.
Proof.
  intros [Hb _] (Hl & _ & _ & Hall). apply Forall_lookup_2. intros i p Hp.
  destruct (lookup_lt_is_Some_2 bursts i) as [b Hbi].
  { rewrite <- Hl. by eapply lookup_lt_Some. }
  destruct (Hall i p b Hp Hbi) as (Hbl & _).
  pose proof (Forall_lookup_1 _ _ _ _ Hb Hbi) as Hb0. simpl in Hb0. lia.
Qed.

Lemma waits_inv_init bursts :
  valid_bursts bursts → waits_inv bursts (table_of bursts) 0.
Proof.
  intros [Hb _]. split; [apply table_of_length|]. split; [done|].
  split; [by rewrite total_table_of|].
  intros i p b. rewrite table_of_lookup. intros Hp Hbi.
  rewrite Hbi in Hp. injection Hp as <-. simpl.
  pose proof (Forall_lookup_1 _ _ _ _ Hb Hbi) as Hb0. simpl in Hb0. lia.
Qed.

Lemma waits_inv_dispatch bursts quantum procs time (c : nat) p :
  valid_bursts bursts → sumZ bursts ≤ CInt.INT_MAX → 0 < quantum →
  waits_inv bursts procs time → procs !! c = Some p → 0 < burst_left p →
  waits_inv bursts (imap (advance c (slice quantum (burst_left p))) procs)
    (CInt.add time (slice quantum (burst_left p))).
Proof.
  intros Hv Hsum Hq HI Hp Hlive.
  pose proof (waits_inv_bursts_ok _ _ _ Hv HI) as Hok.
  destruct HI as (Hl & Htime & Htot & Hall).
  pose proof (slice_bounds quantum (burst_left p) Hq Hlive) as Ha.
  set (a := slice quantum (burst_left p)) in *.
  pose proof (total_lookup_le _ _ _ Hok Hp) as Hple.
  assert (CInt.add time a = time + a) as Hadd.
  { unfold CInt.add. apply wrap_id. int_lia. }
  rewrite Hadd. split; [by rewrite length_imap|]. split; [lia|].
  split; [rewrite (total_advance _ _ _ p) by (done || lia); lia|].
  intros i q b. rewrite list_lookup_imap.
  destruct (procs !! i) as [q0|] eqn:Hq0; [|done]. intros [= <-] Hbi.
  destruct (Hall i q0 b Hq0 Hbi) as (Hbl & Hw & Hrunning & Hdone).
  pose proof (bursts_ok_lookup _ _ _ Hok Hq0) as Hq0b.
  unfold advance. case_decide as Hic.
  - subst i. assert (q0 = p) as -> by congruence. simpl.
    rewrite sub_in_range by (done || lia). specialize (Hrunning Hlive). lia.
  - destruct (Z.ltb_spec 0 (burst_left q0)) as [Hl0|Hd0]; simpl.
    + specialize (Hrunning Hl0).
      assert (CInt.add (wait q0) a = wait q0 + a) as ->.
      { unfold CInt.add. apply wrap_id. int_lia. }
      lia.
    + assert (burst_left q0 = 0) as Hz by lia. specialize (Hdone Hz). lia.
Qed.

(** X12.  For every non-empty table of non-negative bursts whose sum is at
    most [INT_MAX] and every positive quantum, in the table that [rr_run]
    leaves no process has waited longer than the other processes had work:
    [0 <= wait <= sum(bursts) - burst] for every process. *)
Theorem rr_run_waits_bounded bursts procs quantum (fuel : nat) :
  bursts ≠ [] → valid_bursts bursts → sumZ bursts ≤ CInt.INT_MAX →
  0 < quantum →
  init_procs true bursts (Z.of_nat (length bursts)) = Ok (Some procs) →
  (length bursts ≤ fuel)%nat → (Z.to_nat (sumZ bursts) + 1 ≤ fuel)%nat →
  ∃ final,
    rr_run fuel procs (Z.of_nat (length bursts)) quantum
    = Ok (final, sumZ bursts) ∧
    ∀ (i : nat) b, bursts !! i = Some b →
      ∃ p, final !! i = Some p ∧ burst_left p = 0 ∧
           0 ≤ wait p ≤ sumZ bursts - b.
Proof.
  intros Hne Hv Hsum Hq Hinit Hf1 Hf2. apply init_procs_inv in Hinit. subst procs.
  destruct (rr_run_table_of bursts quantum fuel) as (final & Hrun & Hl & Hz & _);
    try done.
  assert (CInt.wrap (sumZ bursts) = sumZ bursts) as Hw.
  { apply wrap_id. destruct Hv as [Hb _].
    assert (0 ≤ sumZ bursts)
      by (apply sumZ_nonneg; eapply Forall_impl; [|exact Hb]; simpl; lia).
    int_lia. }
  rewrite Hw in Hrun. exists final. split; [done|].
  unfold rr_run in Hrun. rewrite <- (table_of_length bursts) in Hrun.
  pose proof (rr_loop_invariant fuel quantum (waits_inv bursts)
                (λ procs0 time c p, waits_inv_dispatch bursts quantum procs0
                                      time c p Hv Hsum Hq)
                fuel _ _ _ _ _ (waits_inv_init bursts Hv) Hrun)
    as (_ & _ & _ & Hall).
  intros i b Hbi.
  destruct (lookup_lt_is_Some_2 final i) as [p Hp].
  { rewrite Hl. by eapply lookup_lt_Some. }
  exists p. split; [done|]. pose proof (Hz _ _ Hp) as Hp0. split; [done|].
  destruct (Hall i p b Hp Hbi) as (_ & Hwait & _ & Hdone).
  specialize (Hdone Hp0). lia.
Qed.

Lemma rr_run_waits_bounded_witness :
  ∃ final,
    rr_run 17 (table_of [5; 3; 8]) 3 3 = Ok (final, sumZ [5; 3; 8]) ∧
    ∀ (i : nat) b, [5; 3; 8] !! i = Some b →
      ∃ p, final !! i = Some p ∧ burst_left p = 0 ∧
           0 ≤ wait p ≤ sumZ [5; 3; 8] - b.
Proof.
  apply (rr_run_waits_bounded [5; 3; 8] (table_of [5; 3; 8]) 3 17).
  - done.
  - split; [int_list | int_lia].
  - int_lia.
  - lia.
  - reflexivity.
  - simpl. lia.
  - simpl. lia.
Defined.

(** ** rr_run with the quantum 0 *)

Lemma rr_next_loop_more_fuel procs plen start :
  ∀ f f' next, (f ≤ f')%nat →
    rr_next_loop f procs plen start next = Err OutOfFuel ∨
    rr_next_loop f' procs plen start next = rr_next_loop f procs plen start next.
Proof.
  induction f as [|f IH]; intros f' next Hf; [by left|].
  destruct f' as [|f']; [lia|]. simpl.
  destruct (arr_get procs next) as [p|e]; simpl; [|by right].
  destruct (burst_left p =? 0); [|by right].
  destruct (c_rem (CInt.add next 1) plen) as [next'|e]; simpl; [|by right].
  destruct (next' =? start); [by right|]. apply IH. lia.
Qed.

(** With any fuel, [rr_next] runs out of fuel or returns the result of
    the scan. *)
Lemma rr_next_any_fuel procs (current fuel : nat) :
  (current < length procs)%nat → Z.of_nat (length procs) ≤ CInt.INT_MAX →
  rr_next fuel (Z.of_nat current) procs (Z.of_nat (length procs)) = Err OutOfFuel ∨
  ∃ r, rr_next fuel (Z.of_nat current) procs (Z.of_nat (length procs)) = Ok r ∧
       scan_result procs ((current + 1) `mod` length procs) r.
Proof.
  intros Hc Hlen.
  destruct (rr_next_scan procs current (fuel `max` length procs) Hc Hlen)
    as (r & Hr & Hscan); [lia|].
  unfold rr_next in *. rewrite c_rem_succ in * by done. simpl in *.
  destruct (rr_next_loop_more_fuel procs (Z.of_nat (length procs))
              (Z.of_nat ((current + 1) `mod` length procs))
              fuel (fuel `max` length procs)
              (Z.of_nat ((current + 1) `mod` length procs))) as [Hout|Heq];
    [lia | by left |].
  right. exists r. by rewrite <- Heq.
Qed.

Lemma advance_zero current i p :
  CInt.in_range (burst_left p) → CInt.in_range (wait p) →
  advance current 0 i p = p.
Proof.
  intros Hb Hw. destruct p as [pid0 b w]. simpl in *.
  unfold advance, set_burst_left, set_wait, CInt.sub, CInt.add. simpl.
  rewrite Z.sub_0_r, Z.add_0_r, !wrap_id by done.
  case_decide; [done|]. by destruct (0 <? b).
Qed.

Lemma rr_loop_quantum_0 (fuel : nat) procs :
  Forall pcb_int procs → bursts_ok procs →
  Z.of_nat (length procs) ≤ CInt.INT_MAX → 0 < total procs →
  ∀ n (current : nat) time,
    (current < length procs)%nat → CInt.in_range time →
    rr_loop fuel n (Z.of_nat (length procs)) 0 procs (Z.of_nat current) time
    = Err OutOfFuel.
Proof.
  intros Hint Hok Hlen Htot. induction n as [|n IH]; intros current time Hc Ht;
    [done|].
  destruct (lookup_lt_is_Some_2 procs current Hc) as [p Hp].
  assert (imap (advance current 0) procs = procs) as Hsame.
  { apply list_eq. intros i. rewrite list_lookup_imap.
    destruct (procs !! i) as [q|] eqn:Hq; simpl; [|done]. f_equal.
    destruct (Forall_lookup_1 _ _ _ _ Hint Hq) as (_ & ? & ?).
    by apply advance_zero. }
  assert (rr_body fuel (Z.of_nat (length procs)) 0 procs (Z.of_nat current) time =
          let* next := rr_next fuel (Z.of_nat current) procs
                         (Z.of_nat (length procs)) in
          Ok (procs, time, next)) as Hbody.
  { unfold rr_body. rewrite (arr_get_nat _ _ _ Hp). simpl.
    destruct (Z.ltb_spec 0 (burst_left p)); [|done].
    destruct (Z.ltb_spec (burst_left p) 0); [lia|].
    rewrite run_proc_imap, Hsame by done. simpl.
    unfold CInt.add. by rewrite Z.add_0_r, wrap_id. }
  cbn [rr_loop]. rewrite Hbody.
  destruct (rr_next_any_fuel procs current fuel Hc Hlen)
    as [->|(r & -> & Hscan)]; [done|]. cbn [bind].
  assert ((current + 1) `mod` length procs < length procs)%nat as Hs
    by (apply Nat.mod_upper_bound; lia).
  destruct (decide (r = -1)) as [->|Hr].
  - pose proof (scan_result_none _ _ Hs Hscan) as Hzero.
    rewrite (total_zero _ Hzero) in Htot. lia.
  - destruct (scan_result_some _ _ _ Hr Hscan) as (k & q & _ & -> & _).
    destruct (Z.eqb_spec (Z.of_nat (((current + 1) `mod` length procs + k)
                                      `mod` length procs)) (-1)); [lia|].
    apply IH; [apply Nat.mod_upper_bound; lia | done].
Qed.

(** X13.  With the quantum 0, [rr_run] does not return on a table of
    non-negative bursts with work to do: every pass runs a process for 0
    and moves on, so that every bound on the passes is exhausted. *)
Theorem rr_run_quantum_0 bursts procs :
  valid_bursts bursts → 0 < sumZ bursts →
  init_procs true bursts (Z.of_nat (length bursts)) = Ok (Some procs) →
  ∀ fuel : nat,
    rr_run fuel procs (Z.of_nat (length bursts)) 0 = Err OutOfFuel.
Proof.
  intros Hv Hsum Hinit fuel. apply init_procs_inv in Hinit. subst procs.
  destruct Hv as [Hb Hlen].
  unfold rr_run. rewrite <- (table_of_length bursts).
  change 0 with (Z.of_nat 0) at 2.
  apply rr_loop_quantum_0.
  - apply Forall_lookup_2. intros i p. rewrite table_of_lookup.
    destruct (bursts !! i) as [b|] eqn:Hbi; [|done]. intros [= <-].
    pose proof (Forall_lookup_1 _ _ _ _ Hb Hbi) as Hb0. simpl in Hb0.
    apply lookup_lt_Some in Hbi.
    repeat split; simpl; int_lia.
  - by apply bursts_ok_table_of.
  - by rewrite table_of_length.
  - by rewrite total_table_of.
  - rewrite table_of_length. destruct bursts; [simpl in Hsum; lia | simpl; lia].
  - int_lia.
Qed.

Lemma rr_run_quantum_0_witness :
  rr_run 40 (table_of [5; 3; 8]) 3 0 = Err OutOfFuel.
Proof.
  apply (rr_run_quantum_0 [5; 3; 8] (table_of [5; 3; 8])).
  - split; [int_list | int_lia].
  - simpl. lia.
  - reflexivity.
Defined.

(** ** rr_next on any table *)

(** X14.  On every non-empty table, negative bursts included, [rr_next]
    returns within [plen] probes; the result is -1 exactly when every
    [burst_left] is 0, and otherwise it is an index of the table, the
    first in circular order from [(current + 1) mod plen] whose
    [burst_left] is not 0: a negative burst counts as work left. *)
Theorem rr_next_first_nonzero procs current (fuel : nat) :
  procs ≠ [] → Z.of_nat (length procs) ≤ CInt.INT_MAX →
  0 ≤ current < Z.of_nat (length procs) → (length procs ≤ fuel)%nat →
  ∃ r,
    rr_next fuel current procs (Z.of_nat (length procs)) = Ok r ∧
    (r = -1 ↔ ∀ i p, procs !! i = Some p → burst_left p = 0) ∧
    (r ≠ -1 →
     0 ≤ r < Z.of_nat (length procs) ∧
     ∃ k, 0 ≤ k < Z.of_nat (length procs) ∧
          r = (current + 1 + k) `mod` Z.of_nat (length procs) ∧
          (∃ p, procs !! Z.to_nat r = Some p ∧ burst_left p ≠ 0) ∧
          ∀ j, 0 ≤ j < k →
               ∃ q, procs !! Z.to_nat ((current + 1 + j) `mod` Z.of_nat (length procs))
                    = Some q ∧ burst_left q = 0).
Proof.
  intros Hne Hlen Hc Hfuel.
  assert (0 < length procs)%nat as Hpos by (destruct procs; [done | simpl; lia]).
  set (n := length procs) in *.
  assert (∃ c : nat, current = Z.of_nat c) as [c ->]
    by (exists (Z.to_nat current); lia).
  assert (c < n)%nat as Hcn by lia.
  destruct (rr_next_scan procs c fuel Hcn Hlen Hfuel) as (r & Hr & Hscan).
  fold n in Hr, Hscan.
  assert ((c + 1) `mod` n < n)%nat as Hs by (apply Nat.mod_upper_bound; lia).
  exists r. split; [done|]. split.
  - split.
    + intros ->. by apply (scan_result_none procs ((c + 1) `mod` n)%nat).
    + intros Hzero. destruct (decide (r = -1)) as [|Hr1]; [done|].
      destruct (scan_result_some _ _ _ Hr1 Hscan) as (k & p & _ & _ & Hp & Hnz & _).
      by specialize (Hzero _ _ Hp).
  - intros Hr1.
    destruct (scan_result_some _ _ _ Hr1 Hscan) as (k & p & Hk & -> & Hp & Hnz & Hz).
    fold n in Hk, Hp, Hz |- *.
    assert (((c + 1) `mod` n + k) `mod` n < n)%nat
      by (apply Nat.mod_upper_bound; lia).
    split; [lia|].
    exists (Z.of_nat k). split; [lia|]. split; [by apply circ_index_Z|].
    split.
    + exists p. by rewrite Nat2Z.id.
    + intros j Hj.
      assert (j = Z.of_nat (Z.to_nat j)) as -> by lia.
      rewrite <- circ_index_Z, Nat2Z.id by done.
      destruct (lookup_lt_is_Some_2 procs
                  ((((c + 1) `mod` n)%nat + Z.to_nat j) `mod` n)%nat) as [q Hq];
        [apply Nat.mod_upper_bound; lia|].
      exists q. split; [done|]. apply (Hz (Z.to_nat j) q); [lia | done].
Qed.

Lemma rr_next_first_nonzero_witness :
  ∃ r,
    rr_next 2 0 [ {| pid := 0; burst_left := 4; wait := 0 |};
                  {| pid := 1; burst_left := -1; wait := 0 |} ] 2 = Ok r ∧
    (r = -1 ↔
     ∀ i p, [ {| pid := 0; burst_left := 4; wait := 0 |};
              {| pid := 1; burst_left := -1; wait := 0 |} ] !! i = Some p →
            burst_left p = 0) ∧
    (r ≠ -1 →
     0 ≤ r < 2 ∧
     ∃ k, 0 ≤ k < 2 ∧ r = (0 + 1 + k) `mod` 2 ∧
          (∃ p, [ {| pid := 0; burst_left := 4; wait := 0 |};
                  {| pid := 1; burst_left := -1; wait := 0 |} ] !! Z.to_nat r
                = Some p ∧ burst_left p ≠ 0) ∧
          ∀ j, 0 ≤ j < k →
               ∃ q, [ {| pid := 0; burst_left := 4; wait := 0 |};
                      {| pid := 1; burst_left := -1; wait := 0 |} ]
                      !! Z.to_nat ((0 + 1 + j) `mod` 2) = Some q ∧
                    burst_left q = 0).
Proof.
  apply (rr_next_first_nonzero
           [ {| pid := 0; burst_left := 4; wait := 0 |};
             {| pid := 1; burst_left := -1; wait := 0 |} ] 0 2).
  - done.
  - int_lia.
  - simpl. lia.
  - simpl. lia.
Defined.

